(** * Clementine, [src/core/network.cpp]

  A shallow embedding of the request layer of Clementine:

  - [NetworkAccessManager::createRequest], the rewriting of every outgoing
    request (identification header, content type, cache policy);
  - [NetworkTimeouts], the supervisor that aborts replies that take too
    long;
  - [RedirectFollower], the bounded follower of HTTP redirects;
  - [ThreadSafeNetworkDiskCache], the wrapper that puts the one disk cache
    of the process behind a mutex, called by one thread and by several.

  The C++ code sits on top of Qt 4 ([QNetworkRequest], [QVariant], [QMap],
  [QObject] timers and signals). The fragment of Qt the code calls is
  modelled in [Module Qt] after Qt's documented behaviour; what Qt leaves to
  the environment (the application name, URL resolution, text to number
  conversion) is a [Variable] of the section that uses it. *)

From Stdlib Require Import ZArith Ascii String List Lia.
From stdpp Require Import base decidable countable gmap list strings.

(** ** The fragment of Qt used by [network.cpp] *)

Module Qt.

Definition QString := string.
Definition QByteArray := string.
Definition QUrl := string.

(** [QNetworkAccessManager::Operation] *)
Inductive Operation :=
| HeadOperation | GetOperation | PutOperation | PostOperation
| DeleteOperation | CustomOperation.

#[global] Instance Operation_eq_dec : EqDecision Operation.
Proof. solve_decision. Defined.

(** [QNetworkRequest::KnownHeaders] *)
Inductive KnownHeaders :=
| ContentTypeHeader | ContentLengthHeader | LocationHeader
| LastModifiedHeader | CookieHeader | SetCookieHeader.

#[global] Instance KnownHeaders_eq_dec : EqDecision KnownHeaders.
Proof. solve_decision. Defined.

Definition KnownHeaders_code (h : KnownHeaders) : nat :=
  match h with
  | ContentTypeHeader => 0 | ContentLengthHeader => 1 | LocationHeader => 2
  | LastModifiedHeader => 3 | CookieHeader => 4 | SetCookieHeader => 5
  end.

Definition KnownHeaders_of_code (n : nat) : KnownHeaders :=
  match n with
  | 0 => ContentTypeHeader | 1 => ContentLengthHeader | 2 => LocationHeader
  | 3 => LastModifiedHeader | 4 => CookieHeader | _ => SetCookieHeader
  end.

#[global] Instance KnownHeaders_countable : Countable KnownHeaders.
Proof.
  apply (inj_countable' KnownHeaders_code KnownHeaders_of_code).
  by intros [].
Defined.

(** [QNetworkRequest::Attribute]; [UserAttribute n] is [User + n]. *)
Inductive Attribute :=
| HttpStatusCodeAttribute | HttpReasonPhraseAttribute
| RedirectionTargetAttribute | ConnectionEncryptedAttribute
| CacheLoadControlAttribute | CacheSaveControlAttribute
| SourceIsFromCacheAttribute | UserAttribute (n : nat).

#[global] Instance Attribute_eq_dec : EqDecision Attribute.
Proof. solve_decision. Defined.

Definition Attribute_code (a : Attribute) : nat :=
  match a with
  | HttpStatusCodeAttribute => 0 | HttpReasonPhraseAttribute => 1
  | RedirectionTargetAttribute => 2 | ConnectionEncryptedAttribute => 3
  | CacheLoadControlAttribute => 4 | CacheSaveControlAttribute => 5
  | SourceIsFromCacheAttribute => 6 | UserAttribute n => 7 + n
  end.

Definition Attribute_of_code (n : nat) : Attribute :=
  match n with
  | 0 => HttpStatusCodeAttribute | 1 => HttpReasonPhraseAttribute
  | 2 => RedirectionTargetAttribute | 3 => ConnectionEncryptedAttribute
  | 4 => CacheLoadControlAttribute | 5 => CacheSaveControlAttribute
  | 6 => SourceIsFromCacheAttribute
  | S (S (S (S (S (S (S k)))))) => UserAttribute k
  end.

#[global] Instance Attribute_countable : Countable Attribute.
Proof.
  apply (inj_countable' Attribute_code Attribute_of_code).
  by intros [].
Defined.

(** [QNetworkRequest::CacheLoadControl], with the values of the C++ enum. *)
Inductive CacheLoadControl :=
| AlwaysNetwork | PreferNetwork | PreferCache | AlwaysCache.

Definition CacheLoadControl_value (c : CacheLoadControl) : Z :=
  match c with
  | AlwaysNetwork => 0 | PreferNetwork => 1
  | PreferCache => 2 | AlwaysCache => 3
  end.

(** The kinds of [QVariant] that requests and replies carry here: the
    invalid variant [QVariant()], an [int], a string and a URL. *)
Inductive QVariant :=
| QVInvalid
| QVInt (z : Z)
| QVString (s : QString)
| QVUrl (u : QUrl).

#[global] Instance QVariant_eq_dec : EqDecision QVariant.
Proof. solve_decision. Defined.

Definition isValid (v : QVariant) : bool :=
  match v with QVInvalid => false | _ => true end.

(** An enum constant passed where a [QVariant] is expected becomes an
    [int] variant. *)
Definition QVariant_of_CacheLoadControl (c : CacheLoadControl) : QVariant :=
  QVInt (CacheLoadControl_value c).

(** [QVariant::toUrl]: a string is read as a URL, anything else that is not
    a URL gives the empty URL. *)
Definition toUrl (v : QVariant) : QUrl :=
  match v with
  | QVUrl u => u
  | QVString s => s
  | _ => EmptyString
  end.

(** ASCII case folding, for [qstricmp] on header names. *)
Definition lower (c : ascii) : ascii :=
  let n := nat_of_ascii c in
  if (65 <=? n)%nat && (n <=? 90)%nat then ascii_of_nat (n + 32) else c.

Fixpoint qstricmp_eq (a b : string) : bool :=
  match a, b with
  | EmptyString, EmptyString => true
  | String x a', String y b' =>
      if decide (lower x = lower y) then qstricmp_eq a' b' else false
  | _, _ => false
  end.

(** [QNetworkRequest]: the URL, the raw headers in the order they were
    set, the parsed ("cooked") known headers, the attributes, and the two
    remaining members that [network.cpp] never reads. *)
Record QNetworkRequest := mkRequest {
  url : QUrl;
  rawHeaders : list (QByteArray * QByteArray);
  cookedHeaders : gmap KnownHeaders QVariant;
  attributes : gmap Attribute QVariant;
  priority : Z;
  originatingObject : Z
}.

(** [QNetworkRequest::rawHeader]: the first pair whose name matches,
    compared without case; empty when there is none. *)
Fixpoint findRawHeader (key : QByteArray) (l : list (QByteArray * QByteArray))
  : option QByteArray :=
  match l with
  | [] => None
  | (k, v) :: l' => if qstricmp_eq k key then Some v else findRawHeader key l'
  end.

Definition hasRawHeader (key : QByteArray) (r : QNetworkRequest) : bool :=
  bool_decide (is_Some (findRawHeader key (rawHeaders r))).

Definition rawHeader (key : QByteArray) (r : QNetworkRequest) : QByteArray :=
  default EmptyString (findRawHeader key (rawHeaders r)).

(** [QNetworkHeadersPrivate::setRawHeaderInternal] with a non-null value:
    every pair with that name is erased, the new pair is appended. *)
Definition setRawHeaderInternal (key value : QByteArray)
    (l : list (QByteArray * QByteArray)) : list (QByteArray * QByteArray) :=
  List.filter (fun kv => negb (qstricmp_eq (fst kv) key)) l ++ [(key, value)].

(** [QNetworkRequest::setRawHeader] for a header name that is not one of
    the known headers (such as [User-Agent] in Qt 4): only the raw list
    changes. An empty name is refused. *)
Definition setRawHeader (key value : QByteArray) (r : QNetworkRequest)
  : QNetworkRequest :=
  match key with
  | EmptyString => r
  | _ =>
    {| url := url r;
       rawHeaders := setRawHeaderInternal key value (rawHeaders r);
       cookedHeaders := cookedHeaders r;
       attributes := attributes r;
       priority := priority r;
       originatingObject := originatingObject r |}
  end.

Definition headerName (h : KnownHeaders) : QByteArray :=
  match h with
  | ContentTypeHeader => "Content-Type"
  | ContentLengthHeader => "Content-Length"
  | LocationHeader => "Location"
  | LastModifiedHeader => "Last-Modified"
  | CookieHeader => "Cookie"
  | SetCookieHeader => "Set-Cookie"
  end%string.

(** The raw form of a string value given for a known header
    ([headerValue] in qnetworkrequest.cpp): the bytes of the string, except
    for the cookie headers, which want a cookie list and get nothing out of
    a string. *)
Definition headerValue (h : KnownHeaders) (s : QString) : QByteArray :=
  match h with
  | CookieHeader | SetCookieHeader => EmptyString
  | _ => s
  end.

(** [QNetworkRequest::header] *)
Definition header (h : KnownHeaders) (r : QNetworkRequest) : QVariant :=
  default QVInvalid (cookedHeaders r !! h).

(** [QNetworkRequest::setHeader] at a string value (the [const char*]
    overload of [QVariant]): the raw header of that name is replaced and the
    cooked entry inserted; a value with an empty raw form is refused. *)
Definition setHeader (h : KnownHeaders) (value : QString) (r : QNetworkRequest)
  : QNetworkRequest :=
  match headerValue h value with
  | EmptyString => r
  | raw =>
    {| url := url r;
       rawHeaders := setRawHeaderInternal (headerName h) raw (rawHeaders r);
       cookedHeaders := <[h := QVString value]> (cookedHeaders r);
       attributes := attributes r;
       priority := priority r;
       originatingObject := originatingObject r |}
  end.

(** [QNetworkRequest::attribute] with its default second argument
    [QVariant()]: an attribute that was never set reads as the invalid
    variant. *)
Definition attribute (a : Attribute) (r : QNetworkRequest) : QVariant :=
  default QVInvalid (attributes r !! a).

(** [QNetworkRequest::setAttribute]: a valid value is stored, an invalid one
    removes the entry. *)
Definition setAttribute (a : Attribute) (v : QVariant) (r : QNetworkRequest)
  : QNetworkRequest :=
  {| url := url r;
     rawHeaders := rawHeaders r;
     cookedHeaders := cookedHeaders r;
     attributes := if isValid v then <[a := v]> (attributes r)
                   else delete a (attributes r);
     priority := priority r;
     originatingObject := originatingObject r |}.

(** [QNetworkRequest::setUrl] *)
Definition setUrl (u : QUrl) (r : QNetworkRequest) : QNetworkRequest :=
  {| url := u;
     rawHeaders := rawHeaders r;
     cookedHeaders := cookedHeaders r;
     attributes := attributes r;
     priority := priority r;
     originatingObject := originatingObject r |}.

(** The raw headers of a given name, in their order: what
    [rawHeader] and the transport see of that header. *)
Definition rawHeadersNamed (key : QByteArray)
    (l : list (QByteArray * QByteArray)) : list (QByteArray * QByteArray) :=
  List.filter (fun kv => qstricmp_eq (fst kv) key) l.

(** A name with its letters folded, the key [qstricmp] compares. *)
Fixpoint case_fold (s : string) : string :=
  match s with
  | EmptyString => EmptyString
  | String c s' => String (lower c) (case_fold s')
  end.

(** [QString("%1 %2").arg(a, b)] *)
Definition arg2 (a b : QString) : QString :=
  String.append a (String " "%char b).

End Qt.

Import Qt.

(** ** [NetworkAccessManager] *)

Section NetworkAccessManager.

(** [QCoreApplication::applicationName()] and [applicationVersion()] *)
Variable applicationName applicationVersion : QString.

(** [QString::toInt], which [QVariant::toInt] uses on a string variant *)
Variable QString_toInt : QString -> Z.

(** [QVariant::toInt]: the invalid variant converts to 0. *)
Definition toInt (v : QVariant) : Z :=
  match v with
  | QVInvalid => 0
  | QVInt z => z
  | QVString s => QString_toInt s
  | QVUrl _ => 0
  end.

(** What [createRequest] hands to [QNetworkAccessManager::createRequest]. *)
Record BaseCall := mkBaseCall {
  base_op : Operation;
  base_request : QNetworkRequest;
  base_outgoingData : Z
}.

Definition user_agent : QByteArray := arg2 applicationName applicationVersion.

Definition createRequest (op : Operation) (request : QNetworkRequest)
    (outgoingData : Z) : BaseCall :=
  let new_request := request in
  let new_request := setRawHeader "User-Agent" user_agent new_request in
  let new_request :=
    if bool_decide (op = PostOperation)
       && negb (isValid (header ContentTypeHeader new_request))
    then setHeader ContentTypeHeader "application/x-www-form-urlencoded"
           new_request
    else new_request in
  (* Prefer the cache unless the caller has changed the setting already *)
  let new_request :=
    if bool_decide (toInt (attribute CacheLoadControlAttribute request)
                    = CacheLoadControl_value PreferNetwork)
    then setAttribute CacheLoadControlAttribute
           (QVariant_of_CacheLoadControl PreferCache) new_request
    else new_request in
  {| base_op := op;
     base_request := new_request;
     base_outgoingData := outgoingData |}.

End NetworkAccessManager.

(** ** [NetworkTimeouts] *)

Module NetworkTimeouts.

(** A reply is known by the address of its object, which is never [NULL]
    for a reply that exists. A running timer is known by its identifier,
    a positive [int]; [timers_] keeps the [int] that
    [QObject::startTimer] returned, which is that identifier, or 0 where
    no timer was started. *)
Abbreviation QNetworkReplyPtr := positive.
Abbreviation TimerId := positive.

Inductive Signal := destroyed | finished.

#[global] Instance Signal_eq_dec : EqDecision Signal.
Proof. solve_decision. Defined.

(** The members of the class, and what the class drives of its [QObject]
    base: whether the thread of the object runs an event dispatcher, the
    timers the object has started and not killed, and the signals of
    replies connected to its slot [ReplyFinished]. *)
Record NetworkTimeouts := mkNetworkTimeouts {
  timeout_msec_ : Z;
  timers_ : gmap QNetworkReplyPtr Z;
  event_dispatcher : bool;
  active_timers : gset TimerId;
  connections : list (QNetworkReplyPtr * Signal)
}.

(** [NetworkTimeouts::NetworkTimeouts], in a thread that runs an event
    dispatcher or in one that does not. *)
Definition new (timeout_msec : Z) (event_dispatcher : bool)
  : NetworkTimeouts :=
  {| timeout_msec_ := timeout_msec;
     timers_ := ∅;
     event_dispatcher := event_dispatcher;
     active_timers := ∅;
     connections := [] |}.

(** The identifier that the next timer gets: one that no running timer
    has. *)
Definition next_timer_id (running : gset TimerId) : TimerId :=
  fresh running.

(** [QObject::startTimer(interval)]: the value returned and the timers
    that run afterwards. With a negative interval, or in a thread without
    event dispatcher, no timer is started and 0 is returned. *)
Definition startTimer (interval : Z) (st : NetworkTimeouts)
  : Z * gset TimerId :=
  if bool_decide (interval < 0)%Z || negb (event_dispatcher st)
  then (0%Z, active_timers st)
  else (Z.pos (next_timer_id (active_timers st)),
        {[next_timer_id (active_timers st)]} ∪ active_timers st).

(** [QObject::killTimer(id)]: the timers that run afterwards. An [int]
    that is not positive names no timer. *)
Definition killTimer (id : Z) (st : NetworkTimeouts) : gset TimerId :=
  match id with
  | Z.pos timer => active_timers st ∖ {[timer]}
  | _ => active_timers st
  end.

(** [QMap::key(value)]: the first key, in the order of the keys, that maps
    to [value]; [None] stands for the default-constructed key, the [NULL]
    pointer. *)
Definition QMap_key (m : gmap QNetworkReplyPtr Z) (value : Z)
  : option QNetworkReplyPtr :=
  foldr (fun k acc => Some (match acc with
                            | Some k' => Pos.min k k'
                            | None => k
                            end))
        None
        (elements (dom (filter (fun kv => kv.2 = value) m))).

(** [NetworkTimeouts::AddReply]; what [startTimer] returns is stored as it
    comes. *)
Definition AddReply (reply : QNetworkReplyPtr) (st : NetworkTimeouts)
  : NetworkTimeouts :=
  if decide (is_Some (timers_ st !! reply)) then st
  else
    let '(id, running) := startTimer (timeout_msec_ st) st in
    {| timeout_msec_ := timeout_msec_ st;
       timers_ := <[reply := id]> (timers_ st);
       event_dispatcher := event_dispatcher st;
       active_timers := running;
       connections :=
         connections st ++ [(reply, destroyed); (reply, finished)] |}.

(** [NetworkTimeouts::ReplyFinished], [sender] being [sender()];
    [timers_.take] removes the entry and [killTimer] stops its timer. *)
Definition ReplyFinished (sender : QNetworkReplyPtr) (st : NetworkTimeouts)
  : NetworkTimeouts :=
  match timers_ st !! sender with
  | Some id =>
      {| timeout_msec_ := timeout_msec_ st;
         timers_ := delete sender (timers_ st);
         event_dispatcher := event_dispatcher st;
         active_timers := killTimer id st;
         connections := connections st |}
  | None => st
  end.

(** [NetworkTimeouts::timerEvent], [timerId] being [e->timerId()]: the
    replies on which [abort()] is called. The members are not written. *)
Definition timerEvent (timerId : Z) (st : NetworkTimeouts)
  : list QNetworkReplyPtr :=
  match QMap_key (timers_ st) timerId with
  | Some reply => [reply]
  | None => []
  end.

(** *** The event loop around the supervisor

    [running] holds the replies that have not finished yet; [aborts] logs
    the calls of [abort()], the latest first. *)
Record World := mkWorld {
  sup : NetworkTimeouts;
  running : gset QNetworkReplyPtr;
  aborts : list QNetworkReplyPtr
}.

(** A signal of [reply] runs the slot once for each connection made for
    it. *)
Definition emit (sig : Signal) (reply : QNetworkReplyPtr)
    (st : NetworkTimeouts)
  : NetworkTimeouts :=
  foldr (fun c s => if decide (c = (reply, sig)) then ReplyFinished reply s
                    else s)
        st (connections st).

(** The connections of an object go away with it. *)
Definition disconnect (reply : QNetworkReplyPtr) (st : NetworkTimeouts)
  : NetworkTimeouts :=
  {| timeout_msec_ := timeout_msec_ st;
     timers_ := timers_ st;
     event_dispatcher := event_dispatcher st;
     active_timers := active_timers st;
     connections := List.filter (fun c => negb (bool_decide (c.1 = reply)))
                      (connections st) |}.

(** [QNetworkReply::abort] as the transport implements it: a reply that is
    still running is stopped and emits [finished()] before [abort] returns;
    a reply that has finished ignores the call. *)
Definition abort (reply : QNetworkReplyPtr) (w : World) : World :=
  let w := {| sup := sup w; running := running w;
              aborts := reply :: aborts w |} in
  if decide (reply ∈ running w) then
    {| sup := emit finished reply (sup w);
       running := running w ∖ {[reply]};
       aborts := aborts w |}
  else w.

Inductive Event :=
| Register (reply : QNetworkReplyPtr)  (* a caller runs AddReply(reply) *)
| Finish (reply : QNetworkReplyPtr)    (* the transport completes the reply *)
| Destroy (reply : QNetworkReplyPtr)   (* the reply object is deleted *)
| Tick (id : TimerId).                 (* the timer id reaches its interval *)

#[global] Instance Event_eq_dec : EqDecision Event.
Proof. solve_decision. Defined.

(** One turn of the event loop. A reply finishes at most once, and only a
    timer that is running delivers a timer event. *)
Definition step (w : World) (e : Event) : World :=
  match e with
  | Register reply =>
      {| sup := AddReply reply (sup w);
         running := running w; aborts := aborts w |}
  | Finish reply =>
      if decide (reply ∈ running w) then
        {| sup := emit finished reply (sup w);
           running := running w ∖ {[reply]};
           aborts := aborts w |}
      else w
  | Destroy reply =>
      {| sup := disconnect reply (emit destroyed reply (sup w));
         running := running w ∖ {[reply]};
         aborts := aborts w |}
  | Tick id =>
      if decide (id ∈ active_timers (sup w)) then
        foldl (fun w' reply => abort reply w') w
              (timerEvent (Z.pos id) (sup w))
      else w
  end.

Definition run (w : World) (es : list Event) : World := foldl step w es.

(** How often [abort()] has been called on [reply]. *)
Definition abort_count (reply : QNetworkReplyPtr) (w : World) : nat :=
  length (List.filter (fun r => bool_decide (r = reply)) (aborts w)).

(** The bookkeeping invariant: the running timers and the entries that
    hold the identifier of a timer correspond one to one, and a watched
    reply is connected to the slot. *)
Record wf (st : NetworkTimeouts) : Prop := mkWf {
  wf_active : forall r id,
      timers_ st !! r = Some (Z.pos id) -> id ∈ active_timers st;
  wf_owner : forall id, id ∈ active_timers st ->
               exists r, timers_ st !! r = Some (Z.pos id);
  wf_inj : forall r1 r2 id,
      timers_ st !! r1 = Some (Z.pos id) ->
      timers_ st !! r2 = Some (Z.pos id) -> r1 = r2;
  wf_conn : forall r, is_Some (timers_ st !! r) ->
      (r, finished) ∈ connections st /\ (r, destroyed) ∈ connections st
}.

(** Timers can be started: the interval is not negative and the thread
    runs an event dispatcher. *)
Definition timers_start (st : NetworkTimeouts) : Prop :=
  (0 <= timeout_msec_ st)%Z /\ event_dispatcher st = true.

(** Every entry holds the identifier of a timer. *)
Definition all_started (st : NetworkTimeouts) : Prop :=
  forall r id, timers_ st !! r = Some id -> (0 < id)%Z.

End NetworkTimeouts.

(** ** [RedirectFollower] *)

Module RedirectFollower.

(** What the follower reads of a reply object when the reply finishes:
    [request()], [url()], [operation()], [manager()] (the address of the
    manager that created the reply) and the attributes of the response. *)
Record QNetworkReply := mkReply {
  reply_request : QNetworkRequest;
  reply_url : QUrl;
  reply_operation : Operation;
  reply_manager : positive;
  reply_attributes : gmap Attribute QVariant
}.

(** [QNetworkReply::attribute] *)
Definition reply_attribute (a : Attribute) (r : QNetworkReply) : QVariant :=
  default QVInvalid (reply_attributes r !! a).

Inductive ReplySignal :=
| readyRead | error | downloadProgress | uploadProgress | reply_finished.

(** What a handler of the follower does to the outside. [Send m op req d]
    is the call [createRequest(op, req, d)] on the manager at [m], which
    puts a request on the wire. *)
Inductive Action :=
| DeleteLater (r : QNetworkReply)
| Connect (r : QNetworkReply) (sig : ReplySignal)
| Send (manager : positive) (op : Operation) (req : QNetworkRequest)
       (outgoingData : Z)
| EmitFinished.

(** [QNetworkAccessManager::get(request)] is
    [createRequest(GetOperation, request)], without outgoing data. *)
Definition QNetworkAccessManager_get (manager : positive)
    (req : QNetworkRequest) : Action :=
  Send manager GetOperation req 0.

(** The C++ [int]: 32 bits, two's complement. *)
Definition int_wrap (z : Z) : Z := ((z + 2 ^ 31) mod 2 ^ 32 - 2 ^ 31)%Z.

Definition INT_MAX : Z := (2 ^ 31 - 1)%Z.

Record RedirectFollower := mkRedirectFollower {
  current_reply_ : QNetworkReply;
  redirects_remaining_ : Z
}.

(** [RedirectFollower::ConnectReply] *)
Definition ConnectReply (reply : QNetworkReply) : list Action :=
  [ Connect reply readyRead;
    Connect reply error;
    Connect reply downloadProgress;
    Connect reply uploadProgress;
    Connect reply reply_finished ].

(** [RedirectFollower::RedirectFollower] *)
Definition new (first_reply : QNetworkReply) (max_redirects : Z)
  : RedirectFollower * list Action :=
  ({| current_reply_ := first_reply;
      redirects_remaining_ := max_redirects |},
   ConnectReply first_reply).

Section Transport.

(** [QUrl::resolved] *)
Variable resolved : QUrl -> QUrl -> QUrl.

(** The reply object that the manager at the given address returns for a
    request. *)
Variable reply_of : positive -> QNetworkRequest -> QNetworkReply.

(** [RedirectFollower::ReplyFinished] *)
Definition ReplyFinished (f : RedirectFollower)
  : RedirectFollower * list Action :=
  let cur := current_reply_ f in
  let deleted := [DeleteLater cur] in
  if isValid (reply_attribute RedirectionTargetAttribute cur) then
    (* redirects_remaining_-- == 0 *)
    let before := redirects_remaining_ f in
    let after := int_wrap (before - 1) in
    if decide (before = 0%Z) then
      ({| current_reply_ := cur; redirects_remaining_ := after |},
       deleted ++ [EmitFinished])
    else
      let next_url :=
        resolved (reply_url cur)
                 (toUrl (reply_attribute RedirectionTargetAttribute cur)) in
      let req := setUrl next_url (reply_request cur) in
      let next := reply_of (reply_manager cur) req in
      ({| current_reply_ := next; redirects_remaining_ := after |},
       deleted ++ [QNetworkAccessManager_get (reply_manager cur) req]
               ++ ConnectReply next)
  else
    (f, deleted ++ [EmitFinished]).

(** *** The follower in the event loop

    A response is the attribute table the transport has filled in when the
    reply finishes. *)
Definition with_response (resp : gmap Attribute QVariant) (r : QNetworkReply)
  : QNetworkReply :=
  {| reply_request := reply_request r;
     reply_url := reply_url r;
     reply_operation := reply_operation r;
     reply_manager := reply_manager r;
     reply_attributes := resp |}.

Definition is_send (a : Action) : bool :=
  match a with Send _ _ _ _ => true | _ => false end.

Definition is_finished (a : Action) : bool :=
  match a with EmitFinished => true | _ => false end.

(** The replies of the chain finish one after the other, each with the next
    response of the list. A handler that sent no request leaves no reply in
    flight, and nothing more happens; so does a reply that never gets its
    response. *)
Fixpoint drive (f : RedirectFollower) (responses : list (gmap Attribute QVariant))
  : list Action :=
  match responses with
  | [] => []
  | resp :: rest =>
      let arrived :=
        {| current_reply_ := with_response resp (current_reply_ f);
           redirects_remaining_ := redirects_remaining_ f |} in
      let '(f', acts) := ReplyFinished arrived in
      if existsb is_send acts then acts ++ drive f' rest else acts
  end.

(** The whole life of a follower made for [first_reply]. *)
Definition follow (first_reply : QNetworkReply) (max_redirects : Z)
    (responses : list (gmap Attribute QVariant)) : list Action :=
  let '(f, acts) := new first_reply max_redirects in
  acts ++ drive f responses.

End Transport.

(** The requests the follower has sent itself. *)
Definition follow_ups (acts : list Action) : nat :=
  length (List.filter is_send acts).

(** The requests on the wire: the one that produced the first reply, and
    those of the follower. *)
Definition physical_requests (acts : list Action) : nat :=
  S (follow_ups acts).

Definition finished_signals (acts : list Action) : nat :=
  length (List.filter is_finished acts).

Definition is_redirect (resp : gmap Attribute QVariant) : bool :=
  isValid (default QVInvalid (resp !! RedirectionTargetAttribute)).

End RedirectFollower.

(** ** The chain of a [RedirectFollower], counted *)

Module RedirectChain.
Import RedirectFollower.

Definition INT_MIN : Z := (- 2 ^ 31)%Z.



(** Two requests that differ in the URL at most. *)
Definition same_but_url (a b : QNetworkRequest) : Prop :=
  rawHeaders a = rawHeaders b
  /\ cookedHeaders a = cookedHeaders b
  /\ attributes a = attributes b
  /\ priority a = priority b
  /\ originatingObject a = originatingObject b.

(** A request of the follower that goes to [manager], as a [GET] without
    outgoing data, and differs from [request] in the URL at most. *)
Definition hop_of (manager : positive) (request : QNetworkRequest)
    (a : Action) : Prop :=
  match a with
  | Send m op req d =>
      m = manager /\ op = GetOperation /\ d = 0%Z /\ same_but_url req request
  | _ => True
  end.

(** What a [NetworkAccessManager] that receives the [Send] hands to its
    base class: [get] calls the virtual [createRequest]. *)
Definition through_NetworkAccessManager
    (applicationName applicationVersion : QString)
    (QString_toInt : QString -> Z) (a : Action) : option BaseCall :=
  match a with
  | Send _ op req d =>
      Some (createRequest applicationName applicationVersion QString_toInt
              op req d)
  | _ => None
  end.

End RedirectChain.

(** ** [ThreadSafeNetworkDiskCache] *)

Module ThreadSafeNetworkDiskCache.

(** The interface [QAbstractNetworkCache], as [QNetworkDiskCache]
    implements it on the state of a cache object. Devices are known by
    their addresses. [setCacheDirectory] is of [QNetworkDiskCache]
    alone. *)
Class QAbstractNetworkCache (Cache MetaData : Type) := {
  new_cache : Cache;
  setCacheDirectory : QString -> Cache -> Cache;
  cacheSize : Cache -> Z;
  data : QUrl -> Cache -> Z * Cache;
  insert : Z -> Cache -> Cache;
  metaData : QUrl -> Cache -> MetaData * Cache;
  prepare : MetaData -> Cache -> Z * Cache;
  remove : QUrl -> Cache -> bool * Cache;
  updateMetaData : MetaData -> Cache -> Cache;
  clear : Cache -> Cache
}.

Section Wrapper.

Context {Cache MetaData : Type} `{QAbstractNetworkCache Cache MetaData}.

(** [Utilities::GetConfigPath(Utilities::Path_NetworkCache)] *)
Variable NetworkCache_path : QString.

(** The static members: whether [sMutex] is held, and [sCache], [None]
    being [NULL]. *)
Record Statics := mkStatics {
  sMutex : bool;
  sCache : option Cache
}.

(** Before any wrapper exists. *)
Definition initial : Statics := {| sMutex := false; sCache := None |}.

(** [QMutexLocker l(&sMutex)] around a body: the mutex is taken, the body
    runs, the mutex is released when the locker goes out of scope. The
    mutex is not recursive: where it is held already the call does not
    return, which is [None]. *)
Definition QMutexLocker {A} (body : Statics -> option (A * Statics))
    (st : Statics) : option (A * Statics) :=
  if sMutex st then None
  else
    match body {| sMutex := true; sCache := sCache st |} with
    | Some (a, st') => Some (a, {| sMutex := false; sCache := sCache st' |})
    | None => None
    end.

(** [sCache->method(...)]: there is no result through a [NULL] pointer. *)
Definition through_sCache {A} (method : Cache -> A * Cache) (st : Statics)
  : option (A * Statics) :=
  match sCache st with
  | Some cache =>
      let '(a, cache') := method cache in
      Some (a, {| sMutex := sMutex st; sCache := Some cache' |})
  | None => None
  end.

(** [ThreadSafeNetworkDiskCache::ThreadSafeNetworkDiskCache] *)
Definition construct : Statics -> option (unit * Statics) :=
  QMutexLocker (fun st =>
    Some (tt,
          match sCache st with
          | Some _ => st
          | None =>
              {| sMutex := sMutex st;
                 sCache := Some (setCacheDirectory NetworkCache_path
                                   new_cache) |}
          end)).

(** The eight methods of the wrapper. *)
Definition wrapper_cacheSize : Statics -> option (Z * Statics) :=
  QMutexLocker (through_sCache (fun c => (cacheSize c, c))).

Definition wrapper_data (url : QUrl) : Statics -> option (Z * Statics) :=
  QMutexLocker (through_sCache (data url)).

Definition wrapper_insert (device : Z) : Statics -> option (unit * Statics) :=
  QMutexLocker (through_sCache (fun c => (tt, insert device c))).

Definition wrapper_metaData (url : QUrl)
  : Statics -> option (MetaData * Statics) :=
  QMutexLocker (through_sCache (metaData url)).

Definition wrapper_prepare (meta : MetaData)
  : Statics -> option (Z * Statics) :=
  QMutexLocker (through_sCache (prepare meta)).

Definition wrapper_remove (url : QUrl) : Statics -> option (bool * Statics) :=
  QMutexLocker (through_sCache (remove url)).

Definition wrapper_updateMetaData (meta : MetaData)
  : Statics -> option (unit * Statics) :=
  QMutexLocker (through_sCache (fun c => (tt, updateMetaData meta c))).

Definition wrapper_clear : Statics -> option (unit * Statics) :=
  QMutexLocker (through_sCache (fun c => (tt, clear c))).

(** [NetworkAccessManager::NetworkAccessManager]: the manager makes a
    wrapper of its own and sets it as its cache. *)
Definition NetworkAccessManager_new : Statics -> option (unit * Statics) :=
  construct.

(** Calls on wrappers, and what they return. *)
Inductive Call :=
| Construct
| CacheSize
| Data (url : QUrl)
| Insert (device : Z)
| GetMetaData (url : QUrl)
| Prepare (meta : MetaData)
| Remove (url : QUrl)
| UpdateMetaData (meta : MetaData)
| Clear.

Inductive Result :=
| Done
| Size (n : Z)
| Device (device : Z)
| Meta (meta : MetaData)
| Removed (b : bool).

Definition returning {A} (r : A -> Result) (x : option (A * Statics))
  : option (Result * Statics) :=
  match x with
  | Some (a, st) => Some (r a, st)
  | None => None
  end.

(** A call on a wrapper. *)
Definition call_wrapper (c : Call) (st : Statics)
  : option (Result * Statics) :=
  match c with
  | Construct => returning (fun _ => Done) (construct st)
  | CacheSize => returning Size (wrapper_cacheSize st)
  | Data url => returning Device (wrapper_data url st)
  | Insert device => returning (fun _ => Done) (wrapper_insert device st)
  | GetMetaData url => returning Meta (wrapper_metaData url st)
  | Prepare meta => returning Device (wrapper_prepare meta st)
  | Remove url => returning Removed (wrapper_remove url st)
  | UpdateMetaData meta =>
      returning (fun _ => Done) (wrapper_updateMetaData meta st)
  | Clear => returning (fun _ => Done) (wrapper_clear st)
  end.

(** The same call on the cache object itself; making one more wrapper
    is nothing to the cache. *)
Definition call_cache (c : Call) (cache : Cache) : Result * Cache :=
  match c with
  | Construct => (Done, cache)
  | CacheSize => (Size (cacheSize cache), cache)
  | Data url => let '(d, cache') := data url cache in (Device d, cache')
  | Insert device => (Done, insert device cache)
  | GetMetaData url =>
      let '(m, cache') := metaData url cache in (Meta m, cache')
  | Prepare meta =>
      let '(d, cache') := prepare meta cache in (Device d, cache')
  | Remove url => let '(b, cache') := remove url cache in (Removed b, cache')
  | UpdateMetaData meta => (Done, updateMetaData meta cache)
  | Clear => (Done, clear cache)
  end.

(** Calls one after the other, with their results in order. *)
Fixpoint run_wrapper (calls : list Call) (st : Statics)
  : option (list Result * Statics) :=
  match calls with
  | [] => Some ([], st)
  | c :: calls' =>
      match call_wrapper c st with
      | Some (r, st') =>
          match run_wrapper calls' st' with
          | Some (rs, st'') => Some (r :: rs, st'')
          | None => None
          end
      | None => None
      end
  end.

Fixpoint run_cache (calls : list Call) (cache : Cache)
  : list Result * Cache :=
  match calls with
  | [] => ([], cache)
  | c :: calls' =>
      let '(r, cache') := call_cache c cache in
      let '(rs, cache'') := run_cache calls' cache' in
      (r :: rs, cache'')
  end.

End Wrapper.

End ThreadSafeNetworkDiskCache.

(** ** [ThreadSafeNetworkDiskCache], several threads *)

Module CacheThreads.
Import ThreadSafeNetworkDiskCache.

Section Threads.

Context {Cache MetaData : Type} `{QAbstractNetworkCache Cache MetaData}.
Variable NetworkCache_path : QString.

(** [QMutex::lock] on [sMutex]: the mutex is taken where it is free;
    where it is held the caller gets no further, which is [None]. *)
Definition lock (st : @Statics Cache) : option (@Statics Cache) :=
  if sMutex st then None else Some {| sMutex := true; sCache := sCache st |}.

(** [QMutex::unlock] on [sMutex] *)
Definition unlock (st : @Statics Cache) : @Statics Cache :=
  {| sMutex := false; sCache := sCache st |}.

(** What the method behind a call does below its [QMutexLocker]. *)
Definition method_body (c : @Call MetaData) (st : @Statics Cache)
  : option (@Result MetaData * @Statics Cache) :=
  match c with
  | Construct =>
      Some (Done,
            match sCache st with
            | Some _ => st
            | None =>
                {| sMutex := sMutex st;
                   sCache := Some (setCacheDirectory NetworkCache_path
                                     new_cache) |}
            end)
  | CacheSize =>
      returning Size (through_sCache (fun c => (cacheSize c, c)) st)
  | Data url => returning Device (through_sCache (data url) st)
  | Insert device =>
      returning (fun _ => Done)
        (through_sCache (fun c => (tt, insert device c)) st)
  | GetMetaData url => returning Meta (through_sCache (metaData url) st)
  | Prepare meta => returning Device (through_sCache (prepare meta) st)
  | Remove url => returning Removed (through_sCache (remove url) st)
  | UpdateMetaData meta =>
      returning (fun _ => Done)
        (through_sCache (fun c => (tt, updateMetaData meta c)) st)
  | Clear =>
      returning (fun _ => Done) (through_sCache (fun c => (tt, clear c)) st)
  end.

(** Where a thread is: outside the wrappers, or inside a method, past its
    [QMutexLocker] and at work on [sCache]. The cache object is not made
    for several threads: a method works from the object as it found it
    when it began, [found], and leaves its outcome when it returns. *)
Inductive Place :=
| Outside
| Inside (c : @Call MetaData) (found : option Cache).

(** A thread: the calls it has still to make, where it is, and what its
    calls have returned so far. *)
Record Thread := mkThread {
  todo : list (@Call MetaData);
  place : Place;
  returned : list (@Result MetaData)
}.

(** The process: the static members, the threads, and the calls that
    have returned, in the order in which they returned, each with the
    number of its thread and its result. *)
Record Config := mkConfig {
  statics : @Statics Cache;
  threads : list Thread;
  history : list (nat * @Call MetaData * @Result MetaData)
}.

(** The thread [i] is given the processor for one step. Outside, it
    makes its next call and takes the mutex, or waits where the mutex is
    held. Inside, it finishes the method, releases the mutex, as the
    locker goes out of scope, and returns; a method that calls through a
    [NULL] [sCache] gets no further. *)
Definition step (i : nat) (cfg : Config) : Config :=
  match threads cfg !! i with
  | None => cfg
  | Some t =>
      match place t with
      | Outside =>
          match todo t with
          | [] => cfg
          | c :: rest =>
              match lock (statics cfg) with
              | None => cfg
              | Some locked =>
                  {| statics := locked;
                     threads :=
                       <[i := {| todo := rest;
                                 place := Inside c (sCache locked);
                                 returned := returned t |}]> (threads cfg);
                     history := history cfg |}
              end
          end
      | Inside c found =>
          match method_body c {| sMutex := sMutex (statics cfg);
                                 sCache := found |} with
          | None => cfg
          | Some (r, st) =>
              {| statics := unlock st;
                 threads :=
                   <[i := {| todo := todo t;
                             place := Outside;
                             returned := returned t ++ [r] |}]> (threads cfg);
                 history := history cfg ++ [(i, c, r)] |}
          end
      end
  end.

(** The scheduler gives the processor to one thread after the other. *)
Definition run (schedule : list nat) (cfg : Config) : Config :=
  foldl (fun cfg i => step i cfg) cfg schedule.

(** Threads that have their calls before them. *)
Definition start (programs : list (list (@Call MetaData)))
    (st : @Statics Cache) : Config :=
  {| statics := st;
     threads := map (fun calls => {| todo := calls; place := Outside;
                                     returned := [] |}) programs;
     history := [] |}.






End Threads.

End CacheThreads.

(** ** Sample data *)

Module Samples.

Definition plain_request : QNetworkRequest :=
  {| url := "http://a/b";
     rawHeaders := [("Accept"%string, "*/*"%string)];
     cookedHeaders := ∅;
     attributes := ∅;
     priority := 3;
     originatingObject := 0 |}.

(** The caller asked for [PreferNetwork] in so many words. *)
Definition prefer_network_request : QNetworkRequest :=
  setAttribute CacheLoadControlAttribute
    (QVariant_of_CacheLoadControl PreferNetwork) plain_request.

Definition always_cache_request : QNetworkRequest :=
  setAttribute CacheLoadControlAttribute
    (QVariant_of_CacheLoadControl AlwaysCache) plain_request.

(** The caller chose a content type and an agent of its own. *)
Definition json_request : QNetworkRequest :=
  setRawHeader "user-agent" "curl/7"
    (setHeader ContentTypeHeader "application/json" plain_request).

(** A conversion of text to numbers that knows no number. *)
Definition no_number (s : QString) : Z := 0.

(** Two replies in flight and a supervisor that watches nothing yet. *)
Definition idle_world : NetworkTimeouts.World :=
  {| NetworkTimeouts.sup := NetworkTimeouts.new 30000 true;
     NetworkTimeouts.running := {[1%positive; 2%positive]};
     NetworkTimeouts.aborts := [] |}.

(** The supervisor watches reply 1. *)
Definition watching_world : NetworkTimeouts.World :=
  NetworkTimeouts.step idle_world (NetworkTimeouts.Register 1%positive).

(** [QUrl::resolved] at an absolute target, which is the target; the
    sample redirects are absolute. *)
Definition resolved_absolute (base target : QUrl) : QUrl := target.

(** A manager whose replies show the request they were made for. *)
Definition plain_reply_of (manager : positive) (req : QNetworkRequest)
  : RedirectFollower.QNetworkReply :=
  {| RedirectFollower.reply_request := req;
     RedirectFollower.reply_url := url req;
     RedirectFollower.reply_operation := GetOperation;
     RedirectFollower.reply_manager := manager;
     RedirectFollower.reply_attributes := ∅ |}.

Definition redirect_to (target : QUrl) : gmap Attribute QVariant :=
  {[ RedirectionTargetAttribute := QVUrl target ]}.

Definition ok_response : gmap Attribute QVariant :=
  {[ HttpStatusCodeAttribute := QVInt 200 ]}.

(** The reply to a [POST] of a form, answered with a redirect. *)
Definition post_reply : RedirectFollower.QNetworkReply :=
  {| RedirectFollower.reply_request :=
       setHeader ContentTypeHeader "application/x-www-form-urlencoded"
         plain_request;
     RedirectFollower.reply_url := "http://a/b";
     RedirectFollower.reply_operation := PostOperation;
     RedirectFollower.reply_manager := 7;
     RedirectFollower.reply_attributes := redirect_to "http://a/y" |}.

Definition post_follower : RedirectFollower.RedirectFollower :=
  {| RedirectFollower.current_reply_ := post_reply;
     RedirectFollower.redirects_remaining_ := 2 |}.

(** The reply to a [GET], not answered yet. *)
Definition get_reply : RedirectFollower.QNetworkReply :=
  plain_reply_of 7 plain_request.

(** A cache that keeps the URLs it was told to prepare. *)
#[local] Instance url_list_cache
  : ThreadSafeNetworkDiskCache.QAbstractNetworkCache (list QUrl) QUrl :=
  {| ThreadSafeNetworkDiskCache.new_cache := [];
     ThreadSafeNetworkDiskCache.setCacheDirectory := fun _ c => c;
     ThreadSafeNetworkDiskCache.cacheSize := fun c => Z.of_nat (length c);
     ThreadSafeNetworkDiskCache.data :=
       fun u c => (if bool_decide (u ∈ c) then 1%Z else 0%Z, c);
     ThreadSafeNetworkDiskCache.insert := fun _ c => c;
     ThreadSafeNetworkDiskCache.metaData := fun u c => (u, c);
     ThreadSafeNetworkDiskCache.prepare := fun u c => (1%Z, u :: c);
     ThreadSafeNetworkDiskCache.remove :=
       fun u c => (bool_decide (u ∈ c),
                   List.filter (fun v => negb (bool_decide (v = u))) c);
     ThreadSafeNetworkDiskCache.updateMetaData := fun _ c => c;
     ThreadSafeNetworkDiskCache.clear := fun _ => [] |}.

(** Two threads, each with a wrapper of its own to make and two calls on
    it, and a schedule that lets them take turns. *)
Definition two_threads : list (list (@ThreadSafeNetworkDiskCache.Call QUrl)) :=
  [ [ThreadSafeNetworkDiskCache.Construct;
     ThreadSafeNetworkDiskCache.Prepare "http://a/b"%string;
     ThreadSafeNetworkDiskCache.CacheSize];
    [ThreadSafeNetworkDiskCache.Construct;
     ThreadSafeNetworkDiskCache.Remove "http://a/b"%string;
     ThreadSafeNetworkDiskCache.Data "http://a/b"%string] ].

Definition taking_turns : list nat :=
  [0; 1; 0; 1; 1; 0; 0; 1; 1; 0; 0; 1; 1; 1].

End Samples.

(** * Properties *)

(** ** Header names *)

Lemma qstricmp_eq_fold a b :
  qstricmp_eq a b = true <-> case_fold a = case_fold b.
Proof.
  revert b. induction a as [|x a IH]; intros [|y b]; simpl; try done.
  case_decide as Hxy.
  - rewrite IH. split; [intros ->; by rewrite Hxy | by intros [= _ ?]].
  - split; [done | by intros [= ? _]].
Qed.

Lemma qstricmp_eq_refl a : qstricmp_eq a a = true.
Proof. by apply qstricmp_eq_fold. Qed.

Lemma qstricmp_eq_other k key key' :
  qstricmp_eq key' key = false ->
  qstricmp_eq k key' = true -> qstricmp_eq k key = false.
Proof.
  intros Hne Hk. apply not_true_is_false. intros Hk'.
  apply qstricmp_eq_fold in Hk, Hk'.
  assert (qstricmp_eq key' key = true) by (apply qstricmp_eq_fold; congruence).
  congruence.
Qed.

Lemma findRawHeader_named key l :
  findRawHeader key l = snd <$> head (rawHeadersNamed key l).
Proof.
  induction l as [|[k v] l IH]; simpl; [done|].
  destruct (qstricmp_eq k key); simpl; done.
Qed.

Lemma rawHeadersNamed_app key l1 l2 :
  rawHeadersNamed key (l1 ++ l2)
  = rawHeadersNamed key l1 ++ rawHeadersNamed key l2.
Proof. apply List.filter_app. Qed.

(** After [setRawHeaderInternal] the header has the new value and no
    other. *)
Lemma rawHeadersNamed_set_same key value l :
  rawHeadersNamed key (setRawHeaderInternal key value l) = [(key, value)].
Proof.
  unfold setRawHeaderInternal. rewrite rawHeadersNamed_app. simpl.
  rewrite qstricmp_eq_refl.
  replace (rawHeadersNamed key _) with (@nil (QByteArray * QByteArray)); [done|].
  symmetry. induction l as [|[k v] l IH]; simpl; [done|].
  destruct (qstricmp_eq k key) eqn:E; simpl; [done|]. by rewrite E.
Qed.

(** Headers of another name are as they were. *)
Lemma rawHeadersNamed_set_other key key' value l :
  qstricmp_eq key' key = false ->
  rawHeadersNamed key' (setRawHeaderInternal key value l)
  = rawHeadersNamed key' l.
Proof.
  intros Hne. unfold setRawHeaderInternal. rewrite rawHeadersNamed_app. simpl.
  assert (qstricmp_eq key key' = false) as ->.
  { apply not_true_is_false. intros H. apply qstricmp_eq_fold in H.
    symmetry in H. apply qstricmp_eq_fold in H. congruence. }
  rewrite app_nil_r.
  induction l as [|[k v] l IH]; simpl; [done|].
  destruct (qstricmp_eq k key) eqn:E; simpl.
  - destruct (qstricmp_eq k key') eqn:E'; [|done].
    by rewrite (qstricmp_eq_other _ _ _ Hne E') in E.
  - destruct (qstricmp_eq k key'); by rewrite IH.
Qed.

(** ** [NetworkAccessManager::createRequest] *)

Section CreateRequest.

Variable applicationName applicationVersion : QString.
Variable QString_toInt : QString -> Z.

Local Abbreviation rewritten op request out :=
  (base_request
     (createRequest applicationName applicationVersion QString_toInt
        op request out)).

Lemma header_setRawHeader h key value r :
  header h (setRawHeader key value r) = header h r.
Proof. by destruct key. Qed.

(** The members of the rewritten request, one by one. *)
Lemma rewritten_url op request out :
  url (rewritten op request out) = url request.
Proof.
  unfold createRequest. cbv zeta.
  rewrite header_setRawHeader.
  destruct (bool_decide (op = PostOperation)
            && negb (isValid (header ContentTypeHeader request)));
    case_bool_decide; done.
Qed.

Lemma rewritten_priority op request out :
  priority (rewritten op request out) = priority request
  /\ originatingObject (rewritten op request out) = originatingObject request.
Proof.
  unfold createRequest. cbv zeta.
  rewrite header_setRawHeader.
  destruct (bool_decide (op = PostOperation)
            && negb (isValid (header ContentTypeHeader request)));
    case_bool_decide; done.
Qed.

Lemma rewritten_rawHeaders op request out :
  rawHeaders (rewritten op request out)
  = let with_agent :=
      setRawHeaderInternal "User-Agent"
        (user_agent applicationName applicationVersion) (rawHeaders request) in
    if bool_decide (op = PostOperation)
       && negb (isValid (header ContentTypeHeader request))
    then setRawHeaderInternal "Content-Type"
           "application/x-www-form-urlencoded" with_agent
    else with_agent.
Proof.
  unfold createRequest. cbv zeta.
  rewrite header_setRawHeader.
  destruct (bool_decide (op = PostOperation)
            && negb (isValid (header ContentTypeHeader request)));
    case_bool_decide; done.
Qed.

Lemma rewritten_cookedHeaders op request out :
  cookedHeaders (rewritten op request out)
  = if bool_decide (op = PostOperation)
       && negb (isValid (header ContentTypeHeader request))
    then <[ContentTypeHeader := QVString "application/x-www-form-urlencoded"]>
           (cookedHeaders request)
    else cookedHeaders request.
Proof.
  unfold createRequest. cbv zeta.
  rewrite header_setRawHeader.
  destruct (bool_decide (op = PostOperation)
            && negb (isValid (header ContentTypeHeader request)));
    case_bool_decide; done.
Qed.

Lemma rewritten_attributes op request out :
  attributes (rewritten op request out)
  = if bool_decide (toInt QString_toInt
                      (attribute CacheLoadControlAttribute request)
                    = CacheLoadControl_value PreferNetwork)
    then <[CacheLoadControlAttribute :=
             QVariant_of_CacheLoadControl PreferCache]> (attributes request)
    else attributes request.
Proof.
  unfold createRequest. cbv zeta.
  rewrite header_setRawHeader.
  destruct (bool_decide (op = PostOperation)
            && negb (isValid (header ContentTypeHeader request)));
    case_bool_decide; done.
Qed.

(** C10. [createRequest] sets [User-Agent] on every request, whatever the
    operation and whatever the caller had put there: in the rewritten
    request the only raw header of that name (compared without case) is
    the one holding "<application name> <application version>", and that
    is what [rawHeader("User-Agent")] returns. *)
Theorem createRequest_sets_user_agent op request out :
  rawHeadersNamed "User-Agent"
    (rawHeaders (base_request
       (createRequest applicationName applicationVersion QString_toInt
          op request out)))
  = [("User-Agent"%string,
      String.append applicationName (String " "%char applicationVersion))]
  /\ rawHeader "User-Agent"
       (base_request
          (createRequest applicationName applicationVersion QString_toInt
             op request out))
     = String.append applicationName (String " "%char applicationVersion).
Proof.
  assert (rawHeadersNamed "User-Agent" (rawHeaders (rewritten op request out))
          = [("User-Agent"%string,
              user_agent applicationName applicationVersion)]) as H.
  { rewrite rewritten_rawHeaders. cbv zeta.
    case_match.
    - rewrite rawHeadersNamed_set_other by reflexivity.
      apply rawHeadersNamed_set_same.
    - apply rawHeadersNamed_set_same. }
  split; [exact H|].
  unfold rawHeader.
  by rewrite findRawHeader_named, H.
Qed.

(** C7. A [POST] whose content type is not set leaves [createRequest] with
    the content type [application/x-www-form-urlencoded], as the known
    header and as the only raw [Content-Type] header; and a request, of
    any operation, that has a content type keeps it: the known header and
    the raw [Content-Type] headers are the caller's. *)
Theorem createRequest_content_type op request out :
  (op = PostOperation ->
   isValid (header ContentTypeHeader request) = false ->
   header ContentTypeHeader
     (base_request
        (createRequest applicationName applicationVersion QString_toInt
           op request out))
   = QVString "application/x-www-form-urlencoded"
   /\ rawHeadersNamed "Content-Type"
        (rawHeaders (base_request
           (createRequest applicationName applicationVersion QString_toInt
              op request out)))
      = [("Content-Type"%string, "application/x-www-form-urlencoded"%string)])
  /\ (isValid (header ContentTypeHeader request) = true ->
      header ContentTypeHeader
        (base_request
           (createRequest applicationName applicationVersion QString_toInt
              op request out))
      = header ContentTypeHeader request
      /\ rawHeadersNamed "Content-Type"
           (rawHeaders (base_request
              (createRequest applicationName applicationVersion QString_toInt
                 op request out)))
         = rawHeadersNamed "Content-Type" (rawHeaders request)).
Proof.
  split.
  - intros -> Hinv. unfold header at 1.
    rewrite rewritten_cookedHeaders, rewritten_rawHeaders, Hinv. cbv zeta.
    simpl. split.
    + by rewrite lookup_insert_eq.
    + apply rawHeadersNamed_set_same.
  - intros Hval. unfold header at 1.
    rewrite rewritten_cookedHeaders, rewritten_rawHeaders, Hval. cbv zeta.
    rewrite andb_false_r. split; [done|].
    by apply rawHeadersNamed_set_other.
Qed.

(** C9. [createRequest] passes the operation and the outgoing data on as
    they came, and in the request it touches three things only: the raw
    header [User-Agent], the content type (the known header and the raw
    header [Content-Type]) and the attribute [CacheLoadControlAttribute].
    The URL, the priority, the originating object, every other attribute,
    every other known header and the raw headers of every other name are
    the caller's. *)
Theorem createRequest_frame op request out :
  let call :=
    createRequest applicationName applicationVersion QString_toInt
      op request out in
  base_op call = op
  /\ base_outgoingData call = out
  /\ url (base_request call) = url request
  /\ priority (base_request call) = priority request
  /\ originatingObject (base_request call) = originatingObject request
  /\ (forall a, a <> CacheLoadControlAttribute ->
        attributes (base_request call) !! a = attributes request !! a)
  /\ (forall h, h <> ContentTypeHeader ->
        cookedHeaders (base_request call) !! h = cookedHeaders request !! h)
  /\ (forall key,
        qstricmp_eq key "User-Agent" = false ->
        qstricmp_eq key "Content-Type" = false ->
        rawHeadersNamed key (rawHeaders (base_request call))
        = rawHeadersNamed key (rawHeaders request)).
Proof.
  cbv zeta.
  split; [done|]. split; [done|].
  split; [apply rewritten_url|].
  split; [apply rewritten_priority|]. split; [apply rewritten_priority|].
  split; [|split].
  - intros a Ha. rewrite rewritten_attributes.
    case_bool_decide; [|done]. by rewrite lookup_insert_ne.
  - intros h Hh. rewrite rewritten_cookedHeaders.
    case_match; [|done]. by rewrite lookup_insert_ne.
  - intros key Hua Hct. rewrite rewritten_rawHeaders. cbv zeta.
    case_match; by rewrite ?rawHeadersNamed_set_other.
Qed.

(** C1, as the code has it. A request whose [CacheLoadControlAttribute]
    the caller set to [PreferNetwork] leaves [createRequest] with
    [PreferCache]; a request whose attribute the caller set to one of the
    other three policies keeps that policy. *)
Theorem createRequest_cache_policy_explicit op request out c :
  attributes request !! CacheLoadControlAttribute
  = Some (QVariant_of_CacheLoadControl c) ->
  attribute CacheLoadControlAttribute
    (base_request
       (createRequest applicationName applicationVersion QString_toInt
          op request out))
  = QVariant_of_CacheLoadControl
      match c with
      | PreferNetwork => PreferCache
      | _ => c
      end.
Proof.
  intros Hc.
  unfold attribute at 1. rewrite rewritten_attributes.
  unfold attribute. rewrite Hc. simpl.
  destruct c; simpl; by rewrite ?lookup_insert_eq, ?Hc.
Qed.

End CreateRequest.

(** The rewriting at work on the sample requests. *)
Example createRequest_plain_post :
  rawHeaders
    (base_request (createRequest "Clementine" "1.0" Samples.no_number
                     PostOperation Samples.plain_request 0))
  = [("Accept", "*/*"); ("User-Agent", "Clementine 1.0");
     ("Content-Type", "application/x-www-form-urlencoded")]%string.
Proof. reflexivity. Qed.

Example createRequest_json_post :
  rawHeaders
    (base_request (createRequest "Clementine" "1.0" Samples.no_number
                     PostOperation Samples.json_request 0))
  = [("Accept", "*/*"); ("Content-Type", "application/json");
     ("User-Agent", "Clementine 1.0")]%string.
Proof. reflexivity. Qed.

Example createRequest_plain_get :
  rawHeaders
    (base_request (createRequest "Clementine" "1.0" Samples.no_number
                     GetOperation Samples.plain_request 0))
  = [("Accept", "*/*"); ("User-Agent", "Clementine 1.0")]%string.
Proof. reflexivity. Qed.

Lemma createRequest_content_type_witness :
  header ContentTypeHeader
    (base_request (createRequest "Clementine" "1.0" Samples.no_number
                     PostOperation Samples.plain_request 0))
  = QVString "application/x-www-form-urlencoded"
  /\ header ContentTypeHeader
       (base_request (createRequest "Clementine" "1.0" Samples.no_number
                        PostOperation Samples.json_request 0))
     = QVString "application/json".
Proof.
  split.
  - apply (createRequest_content_type "Clementine" "1.0" Samples.no_number
             PostOperation Samples.plain_request 0);
      reflexivity.
  - apply (createRequest_content_type "Clementine" "1.0" Samples.no_number
             PostOperation Samples.json_request 0).
    reflexivity.
Defined.

Lemma createRequest_frame_witness :
  rawHeadersNamed "Accept"
    (rawHeaders (base_request
       (createRequest "Clementine" "1.0" Samples.no_number
          PostOperation Samples.json_request 0)))
  = [("Accept"%string, "*/*"%string)].
Proof.
  apply (createRequest_frame "Clementine" "1.0" Samples.no_number
           PostOperation Samples.json_request 0);
    reflexivity.
Defined.

Lemma createRequest_cache_policy_explicit_witness :
  attribute CacheLoadControlAttribute
    (base_request
       (createRequest "Clementine" "1.0" Samples.no_number
          GetOperation Samples.always_cache_request 0))
  = QVariant_of_CacheLoadControl AlwaysCache.
Proof.
  apply (createRequest_cache_policy_explicit "Clementine" "1.0"
           Samples.no_number GetOperation Samples.always_cache_request 0
           AlwaysCache).
  reflexivity.
Defined.

(** C1, as the specification has it, fails twice. The request that asks
    for [PreferNetwork] is rewritten to [PreferCache]; the request that
    leaves the attribute unset is not rewritten, as the unset attribute
    reads as 0, which is [AlwaysNetwork], not [PreferNetwork]. *)
Lemma createRequest_cache_policy_counterexample :
  attribute CacheLoadControlAttribute Samples.prefer_network_request
  = QVariant_of_CacheLoadControl PreferNetwork
  /\ attribute CacheLoadControlAttribute
       (base_request
          (createRequest "Clementine" "1.0" Samples.no_number
             GetOperation Samples.prefer_network_request 0))
     = QVariant_of_CacheLoadControl PreferCache
  /\ attribute CacheLoadControlAttribute Samples.plain_request = QVInvalid
  /\ attribute CacheLoadControlAttribute
       (base_request
          (createRequest "Clementine" "1.0" Samples.no_number
             GetOperation Samples.plain_request 0))
     = QVInvalid.
Proof. repeat split; reflexivity. Qed.

(** ** [NetworkTimeouts]: the handlers *)

Module NetworkTimeoutsFacts.
Import NetworkTimeouts.

Lemma elem_of_keys_of (m : gmap positive Z) value k :
  k ∈ elements (dom (filter (fun kv => kv.2 = value) m)) <-> m !! k = Some value.
Proof.
  rewrite elem_of_elements, elem_of_dom. unfold is_Some. split.
  - intros [x Hx]. apply map_lookup_filter_Some in Hx as [Hx Hv].
    simpl in Hv. by subst.
  - intros Hk. exists value. by apply map_lookup_filter_Some.
Qed.

Lemma least_Some (l : list positive) k :
  foldr (fun k acc => Some (match acc with
                            | Some k' => Pos.min k k'
                            | None => k
                            end)) None l = Some k ->
  k ∈ l.
Proof.
  revert k. induction l as [|a l IH]; simpl; intros k; [done|].
  destruct (foldr _ None l) as [k'|]; intros [= <-].
  - destruct (Pos.min_dec a k') as [-> | ->]; [left | right; by apply IH].
  - left.
Qed.

Lemma least_None (l : list positive) :
  foldr (fun k acc => Some (match acc with
                            | Some k' => Pos.min k k'
                            | None => k
                            end)) None l = None ->
  l = [].
Proof. by destruct l. Qed.

(** [QMap::key] returns a key that maps to the value, and returns none
    only when there is none. *)
Lemma QMap_key_Some m value k :
  QMap_key m value = Some k -> m !! k = Some value.
Proof. intros H. apply least_Some in H. by apply elem_of_keys_of. Qed.

Lemma QMap_key_None m value k :
  QMap_key m value = None -> m !! k <> Some value.
Proof.
  intros H Hk. apply least_None in H.
  apply elem_of_keys_of in Hk. rewrite H in Hk. by apply elem_of_nil in Hk.
Qed.

Lemma QMap_key_inj m value k :
  (forall k', m !! k' = Some value -> k' = k) ->
  m !! k = Some value -> QMap_key m value = Some k.
Proof.
  intros Hinj Hk. destruct (QMap_key m value) as [k'|] eqn:E.
  - f_equal. apply Hinj. by apply QMap_key_Some.
  - by apply (QMap_key_None _ _ k) in E.
Qed.

(** [AddReply] on a watched reply changes nothing. *)
Lemma AddReply_watched reply st :
  is_Some (timers_ st !! reply) -> AddReply reply st = st.
Proof. intros H. unfold AddReply. by rewrite decide_True. Qed.

(** [startTimer] starts a timer with a new identifier, or starts none and
    returns 0. *)
Lemma startTimer_cases interval st :
  startTimer interval st = (0%Z, active_timers st)
  \/ startTimer interval st
     = (Z.pos (next_timer_id (active_timers st)),
        {[next_timer_id (active_timers st)]} ∪ active_timers st).
Proof. unfold startTimer. case_match; auto. Qed.

Lemma startTimer_started st :
  timers_start st ->
  startTimer (timeout_msec_ st) st
  = (Z.pos (next_timer_id (active_timers st)),
     {[next_timer_id (active_timers st)]} ∪ active_timers st).
Proof.
  intros [Hinterval Hdispatcher]. unfold startTimer.
  rewrite Hdispatcher, bool_decide_eq_false_2 by lia. done.
Qed.

Lemma AddReply_unwatched reply st :
  timers_ st !! reply = None ->
  AddReply reply st
  = {| timeout_msec_ := timeout_msec_ st;
       timers_ := <[reply := (startTimer (timeout_msec_ st) st).1]>
                    (timers_ st);
       event_dispatcher := event_dispatcher st;
       active_timers := (startTimer (timeout_msec_ st) st).2;
       connections :=
         connections st ++ [(reply, destroyed); (reply, finished)] |}.
Proof.
  intros H. unfold AddReply.
  rewrite decide_False by (rewrite H; by intros [? ?]).
  by destruct (startTimer _ _).
Qed.

Lemma AddReply_lookup reply st :
  timers_start st -> timers_ st !! reply = None ->
  timers_ (AddReply reply st) !! reply
  = Some (Z.pos (next_timer_id (active_timers st))).
Proof.
  intros Hstart H. rewrite AddReply_unwatched by done. simpl.
  by rewrite startTimer_started, lookup_insert_eq.
Qed.

Lemma AddReply_is_watched reply st :
  is_Some (timers_ (AddReply reply st) !! reply).
Proof.
  destruct (timers_ st !! reply) eqn:E.
  - rewrite AddReply_watched; eauto.
  - rewrite AddReply_unwatched by done. simpl.
    rewrite lookup_insert_eq. eauto.
Qed.

Lemma AddReply_lookup_ne reply r st :
  r <> reply -> timers_ (AddReply reply st) !! r = timers_ st !! r.
Proof.
  intros H. unfold AddReply. case_decide; [done|].
  destruct (startTimer _ _). simpl. by rewrite lookup_insert_ne.
Qed.

Lemma next_timer_id_fresh (running : gset positive) :
  next_timer_id running ∉ running.
Proof. unfold next_timer_id. apply is_fresh. Qed.

(** [AddReply] leaves the interval and the thread as they are. *)
Lemma AddReply_timers_start reply st :
  timers_start st -> timers_start (AddReply reply st).
Proof.
  intros H. unfold AddReply. case_decide; [done|].
  by destruct (startTimer _ _).
Qed.

(** [ReplyFinished] for a reply that is not watched changes nothing. *)
Lemma ReplyFinished_unwatched sender st :
  timers_ st !! sender = None -> ReplyFinished sender st = st.
Proof. intros H. unfold ReplyFinished. by rewrite H. Qed.

Lemma ReplyFinished_lookup sender st :
  timers_ (ReplyFinished sender st) !! sender = None.
Proof.
  unfold ReplyFinished. destruct (timers_ st !! sender) eqn:E; simpl; [|done].
  apply lookup_delete_eq.
Qed.

Lemma ReplyFinished_lookup_ne sender r st :
  r <> sender -> timers_ (ReplyFinished sender st) !! r = timers_ st !! r.
Proof.
  intros H. unfold ReplyFinished.
  destruct (timers_ st !! sender); simpl; [|done]. by rewrite lookup_delete_ne.
Qed.

Lemma ReplyFinished_idempotent sender st :
  ReplyFinished sender (ReplyFinished sender st) = ReplyFinished sender st.
Proof. apply ReplyFinished_unwatched, ReplyFinished_lookup. Qed.

(** A signal runs the slot as often as it is connected; as the slot is
    idempotent, that is once if the signal is connected at all. *)
Lemma emit_spec sig reply st :
  emit sig reply st
  = if decide ((reply, sig) ∈ connections st) then ReplyFinished reply st
    else st.
Proof.
  unfold emit. generalize (connections st) as l.
  induction l as [|c l IH].
  - done.
  - cbn [foldr]. rewrite IH. destruct (decide (c = (reply, sig))) as [->|Hc].
    + destruct (decide ((reply, sig) ∈ (reply, sig) :: l)) as [_|H].
      * case_decide; [apply ReplyFinished_idempotent | done].
      * exfalso. apply H. left.
    + destruct (decide ((reply, sig) ∈ l)) as [Hl|Hl];
        destruct (decide ((reply, sig) ∈ c :: l)) as [Hcl|Hcl]; try done.
      * exfalso. apply Hcl. by right.
      * apply elem_of_cons in Hcl as [?|?]; congruence.
Qed.

Lemma emit_cases sig reply st :
  emit sig reply st = ReplyFinished reply st \/ emit sig reply st = st.
Proof. rewrite emit_spec. case_decide; auto. Qed.

Lemma emit_lookup_ne sig reply r st :
  r <> reply -> timers_ (emit sig reply st) !! r = timers_ st !! r.
Proof.
  intros H. destruct (emit_cases sig reply st) as [-> | ->]; [|done].
  by apply ReplyFinished_lookup_ne.
Qed.

Lemma emit_unwatched sig reply st :
  timers_ st !! reply = None -> emit sig reply st = st.
Proof.
  intros H. destruct (emit_cases sig reply st) as [-> | ->]; [|done].
  by apply ReplyFinished_unwatched.
Qed.

(** *** The bookkeeping invariant *)

Lemma wf_new timeout_msec dispatcher : wf (new timeout_msec dispatcher).
Proof.
  split; simpl.
  - intros r id H. by rewrite lookup_empty in H.
  - intros id H. by apply not_elem_of_empty in H.
  - intros r1 r2 id H. by rewrite lookup_empty in H.
  - intros r [? H]. by rewrite lookup_empty in H.
Qed.

Lemma wf_AddReply reply st : wf st -> wf (AddReply reply st).
Proof.
  intros [Hact Hown Hinj Hconn].
  destruct (timers_ st !! reply) as [old|] eqn:Hnone;
    [rewrite AddReply_watched; [done | eauto]|].
  rewrite AddReply_unwatched by done.
  pose proof (next_timer_id_fresh (active_timers st)) as Hfresh.
  assert (forall r, reply <> r -> is_Some (timers_ st !! r) ->
            (r, finished)
              ∈ connections st ++ [(reply, destroyed); (reply, finished)]
            /\ (r, destroyed)
                 ∈ connections st ++ [(reply, destroyed); (reply, finished)])
    as Hold.
  { intros r _ [Hf Hd]%Hconn. rewrite !elem_of_app. tauto. }
  assert ((reply, finished)
            ∈ connections st ++ [(reply, destroyed); (reply, finished)]
          /\ (reply, destroyed)
               ∈ connections st ++ [(reply, destroyed); (reply, finished)])
    as Hnew.
  { rewrite !elem_of_app, !elem_of_cons. auto. }
  destruct (startTimer_cases (timeout_msec_ st) st) as [-> | ->];
    split; simpl.
  - intros r id. rewrite lookup_insert. case_decide; [done | apply Hact].
  - intros id Hid. destruct (Hown _ Hid) as [r Hr]. exists r.
    rewrite lookup_insert_ne; [done | congruence].
  - intros r1 r2 id. rewrite !lookup_insert.
    repeat case_decide; try done. apply Hinj.
  - intros r. rewrite lookup_insert. case_decide; [by subst | by apply Hold].
  - intros r id. rewrite lookup_insert. case_decide.
    + intros [= <-]. by apply elem_of_union_l, elem_of_singleton.
    + intros H'. by apply elem_of_union_r, (Hact r).
  - intros id [Hid|Hid]%elem_of_union.
    + apply elem_of_singleton in Hid as ->. exists reply.
      by rewrite lookup_insert_eq.
    + destruct (Hown _ Hid) as [r Hr]. exists r.
      rewrite lookup_insert_ne; [done | congruence].
  - intros r1 r2 id. rewrite !lookup_insert.
    repeat case_decide; subst; try done.
    + intros [= <-] H2. apply Hact in H2. done.
    + intros H1 [= <-]. apply Hact in H1. done.
    + apply Hinj.
  - intros r. rewrite lookup_insert. case_decide; [by subst | by apply Hold].
Qed.

Lemma elem_of_killTimer id st timer :
  timer ∈ killTimer id st
  <-> timer ∈ active_timers st /\ id <> Z.pos timer.
Proof.
  unfold killTimer. destruct id as [|p|p].
  - split; [by intros ? | by intros [? _]].
  - rewrite elem_of_difference, elem_of_singleton.
    split; intros [? Hne]; (split; [done|]); congruence.
  - split; [by intros ? | by intros [? _]].
Qed.

Lemma wf_ReplyFinished sender st : wf st -> wf (ReplyFinished sender st).
Proof.
  intros [Hact Hown Hinj Hconn]. unfold ReplyFinished.
  destruct (timers_ st !! sender) as [id|] eqn:E; [|done].
  split; simpl.
  - intros r id'. rewrite lookup_delete. case_decide as Hne; [done|].
    intros H'. apply elem_of_killTimer. split; [by eapply Hact|].
    intros ->. apply Hne. by apply (Hinj _ _ id').
  - intros id' [Hid Hne]%elem_of_killTimer.
    destruct (Hown _ Hid) as [r Hr]. exists r.
    rewrite lookup_delete_ne; [done|]. intros <-. congruence.
  - intros r1 r2 id'. rewrite !lookup_delete.
    repeat case_decide; try done. apply Hinj.
  - intros r. rewrite lookup_delete. case_decide; [by intros [? ?]|].
    apply Hconn.
Qed.

Lemma wf_emit sig reply st : wf st -> wf (emit sig reply st).
Proof.
  intros H. destruct (emit_cases sig reply st) as [-> | ->]; [|done].
  by apply wf_ReplyFinished.
Qed.

(** A watched reply is connected, so its signal reaches the slot and the
    entry goes. *)
Lemma emit_lookup sig reply st :
  wf st -> timers_ (emit sig reply st) !! reply = None.
Proof.
  intros Hwf. rewrite emit_spec. case_decide as Hc.
  - apply ReplyFinished_lookup.
  - destruct (timers_ st !! reply) eqn:E; [|done].
    exfalso. apply Hc. destruct (wf_conn _ Hwf reply) as [? ?]; [eauto|].
    by destruct sig.
Qed.

Lemma emit_active sig reply id st :
  wf st -> timers_ st !! reply = Some (Z.pos id) ->
  id ∉ active_timers (emit sig reply st).
Proof.
  intros Hwf Hid. rewrite emit_spec. rewrite decide_True.
  - unfold ReplyFinished. rewrite Hid. simpl.
    rewrite elem_of_difference, elem_of_singleton. by intros [_ ?].
  - destruct (wf_conn _ Hwf reply) as [? ?]; [eauto|]. by destruct sig.
Qed.

Lemma wf_disconnect reply st :
  wf st -> timers_ st !! reply = None -> wf (disconnect reply st).
Proof.
  intros [Hact Hown Hinj Hconn] Hnone. split; simpl; try done.
  intros r Hr.
  assert (r <> reply) as Hne.
  { intros ->. rewrite Hnone in Hr. by destruct Hr. }
  destruct (Hconn _ Hr) as [Hf Hd].
  split; apply list_elem_of_In, List.filter_In;
    (split; [by apply list_elem_of_In|]); simpl;
    by rewrite bool_decide_eq_false_2.
Qed.

Lemma abort_sup reply w :
  sup (abort reply w) = sup w
  \/ sup (abort reply w) = emit finished reply (sup w).
Proof. unfold abort. simpl. case_decide; auto. Qed.

Lemma step_Tick w id :
  step w (Tick id)
  = if decide (id ∈ active_timers (sup w)) then
      match QMap_key (timers_ (sup w)) (Z.pos id) with
      | Some reply => abort reply w
      | None => w
      end
    else w.
Proof.
  simpl. case_decide; [|done]. unfold timerEvent.
  by destruct (QMap_key _ _).
Qed.

Lemma wf_step w e : wf (sup w) -> wf (sup (step w e)).
Proof.
  intros Hwf. destruct e as [r|r|r|id].
  - by apply wf_AddReply.
  - simpl. case_decide; [|done]. by apply wf_emit.
  - simpl. apply wf_disconnect; [by apply wf_emit | by apply emit_lookup].
  - rewrite step_Tick. case_decide; [|done].
    destruct (QMap_key _ _) as [r|]; [|done].
    destruct (abort_sup r w) as [-> | ->]; [done | by apply wf_emit].
Qed.

Lemma wf_run es w : wf (sup w) -> wf (sup (run w es)).
Proof.
  revert w. induction es as [|e es IH]; intros w Hwf; [done|].
  apply IH. by apply wf_step.
Qed.

(** So the invariant holds in every state the event loop reaches from a
    new supervisor. *)
Lemma wf_reachable timeout_msec dispatcher replies es :
  wf (sup (run {| sup := new timeout_msec dispatcher; running := replies;
                  aborts := [] |}
             es)).
Proof. apply wf_run, wf_new. Qed.

(** No event changes the interval or the thread of the supervisor. *)
Lemma ReplyFinished_timers_start sender st :
  timers_start st -> timers_start (ReplyFinished sender st).
Proof. intros H. unfold ReplyFinished. by destruct (timers_ st !! sender). Qed.

Lemma emit_timers_start sig reply st :
  timers_start st -> timers_start (emit sig reply st).
Proof.
  intros H. destruct (emit_cases sig reply st) as [-> | ->]; [|done].
  by apply ReplyFinished_timers_start.
Qed.

Lemma step_timers_start w e :
  timers_start (sup w) -> timers_start (sup (step w e)).
Proof.
  intros H. destruct e as [r|r|r|id].
  - by apply AddReply_timers_start.
  - simpl. case_decide; [|done]. by apply emit_timers_start.
  - simpl. by apply (emit_timers_start destroyed r).
  - rewrite step_Tick. case_decide; [|done].
    destruct (QMap_key _ _) as [r|]; [|done].
    destruct (abort_sup r w) as [-> | ->]; [done | by apply emit_timers_start].
Qed.

(** *** Traces of the event loop *)

Lemma aborts_abort reply w : aborts (abort reply w) = reply :: aborts w.
Proof. unfold abort. simpl. by case_decide. Qed.

Lemma abort_count_abort_ne r reply w :
  reply <> r -> abort_count r (abort reply w) = abort_count r w.
Proof.
  intros H. unfold abort_count. rewrite aborts_abort. simpl.
  by rewrite bool_decide_eq_false_2.
Qed.

Lemma emit_keeps_unwatched sig reply r st :
  timers_ st !! r = None -> timers_ (emit sig reply st) !! r = None.
Proof.
  intros H. destruct (decide (r = reply)) as [->|Hne].
  - by rewrite emit_unwatched.
  - by rewrite emit_lookup_ne.
Qed.

(** A reply that is not watched is not aborted, and stays unwatched until
    somebody registers it. *)
Lemma unwatched_step w e r :
  timers_ (sup w) !! r = None -> e <> Register r ->
  timers_ (sup (step w e)) !! r = None
  /\ abort_count r (step w e) = abort_count r w.
Proof.
  intros Hnone He. destruct e as [r'|r'|r'|id].
  - simpl. split; [|done]. rewrite AddReply_lookup_ne; [done | congruence].
  - simpl. case_decide; [|done]. simpl. split; [|done].
    by apply emit_keeps_unwatched.
  - simpl. split; [|done]. by apply emit_keeps_unwatched.
  - rewrite step_Tick. case_decide; [|done].
    destruct (QMap_key _ _) as [r'|] eqn:E; [|done].
    apply QMap_key_Some in E.
    assert (r' <> r) as Hne by congruence.
    split; [|by apply abort_count_abort_ne].
    destruct (abort_sup r' w) as [-> | ->]; [done|].
    by apply emit_keeps_unwatched.
Qed.

Lemma unwatched_run es w r :
  timers_ (sup w) !! r = None ->
  Forall (fun e => e <> Register r) es ->
  timers_ (sup (run w es)) !! r = None
  /\ abort_count r (run w es) = abort_count r w.
Proof.
  revert w. induction es as [|e es IH]; intros w Hnone Hes; [done|].
  apply Forall_cons in Hes as [He Hes].
  destruct (unwatched_step w e r Hnone He) as [H1 H2].
  destruct (IH (step w e) H1 Hes) as [H3 H4].
  split; [done|]. unfold run in *. simpl. congruence.
Qed.

Lemma abort_running_ne r reply w :
  reply <> r -> r ∈ running w -> r ∈ running (abort reply w).
Proof.
  intros Hne Hr. unfold abort. simpl. case_decide; simpl; [|done].
  apply elem_of_difference. split; [done|]. by rewrite elem_of_singleton.
Qed.

(** A watched reply that is still running keeps its timer, and is not
    aborted, as long as it does not finish and its timer does not fire. *)
Lemma watched_step w e r id :
  timers_ (sup w) !! r = Some (Z.pos id) -> r ∈ running w ->
  e <> Finish r -> e <> Destroy r -> e <> Tick id ->
  timers_ (sup (step w e)) !! r = Some (Z.pos id)
  /\ r ∈ running (step w e)
  /\ abort_count r (step w e) = abort_count r w.
Proof.
  intros Hid Hrun Hf Hd Ht. destruct e as [r'|r'|r'|id'].
  - simpl. split; [|done]. destruct (decide (r' = r)) as [->|Hne].
    + rewrite AddReply_watched; [done | eauto].
    + by rewrite AddReply_lookup_ne.
  - assert (r <> r') as Hne by congruence.
    simpl. case_decide; [|done]. simpl.
    rewrite emit_lookup_ne by done. split; [done|]. split; [|done].
    apply elem_of_difference. split; [done|]. by rewrite elem_of_singleton.
  - assert (r <> r') as Hne by congruence.
    simpl. rewrite emit_lookup_ne by done. split; [done|]. split; [|done].
    apply elem_of_difference. split; [done|]. by rewrite elem_of_singleton.
  - rewrite step_Tick. case_decide; [|done].
    destruct (QMap_key _ _) as [r'|] eqn:E; [|done].
    apply QMap_key_Some in E.
    assert (r' <> r) as Hne by congruence.
    split; [|split].
    + destruct (abort_sup r' w) as [-> | ->]; [done|].
      by rewrite emit_lookup_ne.
    + by apply abort_running_ne.
    + by apply abort_count_abort_ne.
Qed.

Lemma watched_run es w r id :
  timers_ (sup w) !! r = Some (Z.pos id) -> r ∈ running w ->
  Forall (fun e => e <> Finish r /\ e <> Destroy r /\ e <> Tick id) es ->
  timers_ (sup (run w es)) !! r = Some (Z.pos id)
  /\ r ∈ running (run w es)
  /\ abort_count r (run w es) = abort_count r w.
Proof.
  revert w. induction es as [|e es IH]; intros w Hid Hrun Hes; [done|].
  apply Forall_cons in Hes as [(Hf & Hd & Ht) Hes].
  destruct (watched_step w e r id Hid Hrun Hf Hd Ht) as (H1 & H2 & H3).
  destruct (IH (step w e) H1 H2 Hes) as (H4 & H5 & H6).
  split; [done|]. split; [done|]. unfold run in *. simpl. congruence.
Qed.

(** The timer of a watched, running reply fires: [abort()] is called on
    that reply, and before [abort()] returns the reply has reported
    [finished()], the entry is gone and the timer is killed. *)
Lemma deadline_step w r id :
  wf (sup w) -> timers_ (sup w) !! r = Some (Z.pos id) -> r ∈ running w ->
  aborts (step w (Tick id)) = r :: aborts w
  /\ (r ∉ running (step w (Tick id)))
  /\ timers_ (sup (step w (Tick id))) !! r = None
  /\ (id ∉ active_timers (sup (step w (Tick id)))).
Proof.
  intros Hwf Hid Hrun. rewrite step_Tick.
  rewrite decide_True by (by eapply wf_active).
  rewrite (QMap_key_inj _ _ r); [|intros k Hk; by eapply wf_inj|done].
  split; [apply aborts_abort|].
  unfold abort. simpl. rewrite decide_True by done. simpl.
  split; [|split].
  - rewrite elem_of_difference, elem_of_singleton. by intros [_ ?].
  - by apply emit_lookup.
  - by apply emit_active.
Qed.

(** C4. The supervisor can start timers: its interval is not negative
    and its thread runs an event dispatcher. A reply is registered while
    it is running, and gets a timer; other events pass, but the reply
    does not finish and its timer does not fire: up to here [abort()] has
    not been called on it. Then its timer fires: [abort()] is called on
    the reply, once, and with the reply's [finished()] the entry is
    removed. Whatever happens afterwards, short of registering the reply
    again, [abort()] is not called on it a second time. *)
Theorem timeout_aborts_exactly_once w r es1 es2 :
  wf (sup w) ->
  (0 <= timeout_msec_ (sup w))%Z -> event_dispatcher (sup w) = true ->
  r ∈ running w -> timers_ (sup w) !! r = None ->
  Forall (fun e => e <> Finish r /\ e <> Destroy r
                   /\ e <> Tick (next_timer_id (active_timers (sup w)))) es1 ->
  Forall (fun e => e <> Register r) es2 ->
  let registered := run (step w (Register r)) es1 in
  let expired :=
    step registered (Tick (next_timer_id (active_timers (sup w)))) in
  timers_ (sup registered) !! r
  = Some (Z.pos (next_timer_id (active_timers (sup w))))
  /\ abort_count r registered = abort_count r w
  /\ r ∈ running registered
  /\ aborts expired = r :: aborts registered
  /\ (r ∉ running expired)
  /\ timers_ (sup expired) !! r = None
  /\ abort_count r (run expired es2) = S (abort_count r w).
Proof.
  intros Hwf Hinterval Hdispatcher Hrun Hnone Hes1 Hes2 registered expired.
  assert (timers_ (sup (step w (Register r))) !! r
          = Some (Z.pos (next_timer_id (active_timers (sup w))))) as Hid
    by (by apply AddReply_lookup).
  destruct (watched_run es1 (step w (Register r)) r _ Hid Hrun Hes1)
    as (Hid1 & Hrun1 & Hcount1).
  fold registered in Hid1, Hrun1, Hcount1.
  assert (wf (sup registered)) as Hwf1
    by (apply wf_run, wf_step, Hwf).
  destruct (deadline_step registered r _ Hwf1 Hid1 Hrun1)
    as (Hab & Hrun2 & Hnone2 & _).
  fold expired in Hab, Hrun2, Hnone2.
  destruct (unwatched_run es2 expired r Hnone2 Hes2) as [_ Hcount3].
  repeat split; try done.
  rewrite Hcount3. unfold abort_count at 1. rewrite Hab. simpl.
  rewrite bool_decide_eq_true_2 by done. simpl.
  f_equal. exact Hcount1.
Qed.

(** C5. A watched reply finishes, or is destroyed, before its timer has
    fired: at that moment the entry is removed and the timer that the
    entry names is killed, so that no timer event of it can come; whatever
    happens afterwards, short of registering the reply again, [abort()] is
    not called on it; and a second [finished()] or [destroyed()] of the
    reply would find no entry and change nothing. *)
Theorem finished_before_deadline_cancels w r id e es :
  wf (sup w) -> timers_ (sup w) !! r = Some id ->
  e = Finish r /\ r ∈ running w \/ e = Destroy r ->
  Forall (fun e' => e' <> Register r) es ->
  timers_ (sup (step w e)) !! r = None
  /\ (forall timer, id = Z.pos timer ->
        timer ∉ active_timers (sup (step w e)))
  /\ abort_count r (step w e) = abort_count r w
  /\ abort_count r (run (step w e) es) = abort_count r w
  /\ ReplyFinished r (sup (step w e)) = sup (step w e).
Proof.
  intros Hwf Hid He Hes.
  assert (timers_ (sup (step w e)) !! r = None
          /\ (forall timer, id = Z.pos timer ->
                timer ∉ active_timers (sup (step w e)))
          /\ abort_count r (step w e) = abort_count r w)
    as (Hnone & Hkilled & Hcount).
  { destruct He as [[-> Hrun] | ->]; simpl.
    - rewrite decide_True by done. simpl.
      split; [by apply emit_lookup|].
      split; [intros timer ->; by apply emit_active | done].
    - split; [by apply emit_lookup|].
      split; [intros timer ->; by apply emit_active | done]. }
  destruct (unwatched_run es (step w e) r Hnone Hes) as [_ Hcount'].
  repeat split; try done.
  - congruence.
  - by apply ReplyFinished_unwatched.
Qed.

(** C6. [AddReply] on a reply that is watched returns the state it was
    given: no timer started, no entry written, no connection made. So
    registering twice is registering once; and as [AddReply] keeps the
    invariant [wf], whether it can start a timer or not, every running
    timer belongs to one watched reply and a watched reply has no timer
    but the one of its entry. *)
Theorem AddReply_idempotent st r :
  (is_Some (timers_ st !! r) -> AddReply r st = st)
  /\ AddReply r (AddReply r st) = AddReply r st
  /\ (wf st -> wf (AddReply r st)).
Proof.
  split; [apply AddReply_watched|]. split; [|apply wf_AddReply].
  apply AddReply_watched, AddReply_is_watched.
Qed.

(** Replies 1 and 2 are watched; 2 finishes in time; the timer of 1 fires
    and 1 is aborted; after that nothing is watched and no timer runs, so
    that a late event of timer 1 finds nobody. *)
Example supervisor_trace :
  let w := run Samples.idle_world
             [Register 1; Register 2; Finish 2; Tick 1; Tick 1; Tick 2;
              Destroy 1; Destroy 2]%positive in
  aborts w = [1%positive]
  /\ timers_ (sup w) = ∅
  /\ active_timers (sup w) = ∅.
Proof. vm_compute. done. Qed.

(** A supervisor made with a negative interval starts no timer: the
    entries hold the 0 that [startTimer] returned, no timer runs, and
    nothing is aborted. *)
Example supervisor_without_timers :
  let w := run {| sup := new (-1) true; running := {[1; 2]}%positive;
                  aborts := [] |}
             [Register 1; Register 2; Tick 1]%positive in
  aborts w = []
  /\ timers_ (sup w) !! 1%positive = Some 0%Z
  /\ timers_ (sup w) !! 2%positive = Some 0%Z
  /\ active_timers (sup w) = ∅.
Proof. vm_compute. done. Qed.

Lemma timeout_aborts_exactly_once_witness :
  abort_count 1
    (run (step (run (step Samples.idle_world (Register 1))
                    [Register 2; Finish 2])
               (Tick (next_timer_id
                        (active_timers (sup Samples.idle_world)))))
         [Tick 1; Destroy 1]%positive)
  = S (abort_count 1 Samples.idle_world).
Proof.
  apply (timeout_aborts_exactly_once Samples.idle_world 1
           [Register 2; Finish 2]%positive [Tick 1; Destroy 1]%positive).
  - apply wf_new.
  - simpl. lia.
  - reflexivity.
  - vm_compute. tauto.
  - reflexivity.
  - repeat constructor; discriminate.
  - repeat constructor; discriminate.
Defined.

Lemma finished_before_deadline_cancels_witness :
  abort_count 1
    (run (step Samples.watching_world (Finish 1)) [Tick 1; Finish 1]%positive)
  = abort_count 1 Samples.watching_world.
Proof.
  apply (finished_before_deadline_cancels Samples.watching_world 1 1
           (Finish 1) [Tick 1; Finish 1]%positive).
  - apply wf_step, wf_new.
  - reflexivity.
  - left. split; [reflexivity | vm_compute; tauto].
  - repeat constructor; discriminate.
Defined.

Lemma AddReply_idempotent_witness :
  AddReply 1 (sup Samples.watching_world) = sup Samples.watching_world.
Proof.
  destruct (AddReply_idempotent (sup Samples.watching_world) 1) as [H _].
  apply H. exists 1%Z. reflexivity.
Defined.

End NetworkTimeoutsFacts.

(** ** [RedirectFollower] *)

Module RedirectFollowerFacts.
Import RedirectFollower.

Section Transport.

Variable resolved : QUrl -> QUrl -> QUrl.
Variable reply_of : positive -> QNetworkRequest -> QNetworkReply.

Lemma int_wrap_pred n :
  (0 < n <= INT_MAX)%Z -> int_wrap (n - 1) = (n - 1)%Z.
Proof.
  unfold INT_MAX, int_wrap. intros H.
  rewrite Z.mod_small; lia.
Qed.

(** The three ways out of [ReplyFinished]. *)
Lemma ReplyFinished_no_redirect f :
  isValid (reply_attribute RedirectionTargetAttribute (current_reply_ f))
  = false ->
  ReplyFinished resolved reply_of f
  = (f, [DeleteLater (current_reply_ f); EmitFinished]).
Proof. intros H. unfold ReplyFinished. by rewrite H. Qed.

Lemma ReplyFinished_exhausted f :
  isValid (reply_attribute RedirectionTargetAttribute (current_reply_ f))
  = true ->
  redirects_remaining_ f = 0%Z ->
  ReplyFinished resolved reply_of f
  = ({| current_reply_ := current_reply_ f;
        redirects_remaining_ := (-1)%Z |},
     [DeleteLater (current_reply_ f); EmitFinished]).
Proof. intros H H0. unfold ReplyFinished. by rewrite H, H0. Qed.

Lemma ReplyFinished_follows f :
  isValid (reply_attribute RedirectionTargetAttribute (current_reply_ f))
  = true ->
  redirects_remaining_ f <> 0%Z ->
  let cur := current_reply_ f in
  let req :=
    setUrl (resolved (reply_url cur)
              (toUrl (reply_attribute RedirectionTargetAttribute cur)))
           (reply_request cur) in
  let next := reply_of (reply_manager cur) req in
  ReplyFinished resolved reply_of f
  = ({| current_reply_ := next;
        redirects_remaining_ := int_wrap (redirects_remaining_ f - 1) |},
     DeleteLater cur :: Send (reply_manager cur) GetOperation req 0
       :: ConnectReply next).
Proof.
  intros H H0. unfold ReplyFinished. rewrite H.
  by rewrite decide_False.
Qed.

Lemma with_response_redirect resp r :
  isValid (reply_attribute RedirectionTargetAttribute (with_response resp r))
  = is_redirect resp.
Proof. done. Qed.

(** With nothing left to spend the follower sends nothing. *)
Lemma drive_exhausted f responses :
  redirects_remaining_ f = 0%Z ->
  follow_ups (drive resolved reply_of f responses) = 0.
Proof.
  intros H0. destruct responses as [|resp rest]; [done|]. simpl.
  destruct (is_redirect resp) eqn:E.
  - rewrite ReplyFinished_exhausted; by rewrite ?with_response_redirect.
  - rewrite ReplyFinished_no_redirect; by rewrite ?with_response_redirect.
Qed.

(** With [n] redirects left and [n + 1] redirects coming, the follower
    sends [n] requests and finishes once. *)
Lemma drive_redirects (n : nat) f redirects rest :
  redirects_remaining_ f = Z.of_nat n ->
  (Z.of_nat n <= INT_MAX)%Z ->
  length redirects = S n ->
  Forall (fun resp => is_redirect resp = true) redirects ->
  follow_ups (drive resolved reply_of f (redirects ++ rest)) = n
  /\ finished_signals (drive resolved reply_of f (redirects ++ rest)) = 1.
Proof.
  revert f redirects.
  induction n as [|n IH]; intros f redirects Hrem Hmax Hlen Hall;
    destruct redirects as [|resp redirects]; try done;
    apply Forall_cons in Hall as [Hresp Hall]; simpl.
  - rewrite ReplyFinished_exhausted; by rewrite ?with_response_redirect.
  - rewrite ReplyFinished_follows; simpl;
      rewrite ?with_response_redirect; try done; [|lia].
    rewrite Hrem, int_wrap_pred by lia.
    match goal with
    | |- context [drive _ _ ?f' _] =>
        destruct (IH f' redirects) as [Hs Hf];
          [simpl; lia | lia | simpl in Hlen; lia | done |]
    end.
    split.
    + unfold follow_ups in *. by rewrite <- Hs at 2.
    + exact Hf.
Qed.

Lemma follow_counts first max_redirects responses :
  physical_requests (follow resolved reply_of first max_redirects responses)
  = S (follow_ups (drive resolved reply_of
                {| current_reply_ := first;
                   redirects_remaining_ := max_redirects |} responses))
  /\ finished_signals
       (follow resolved reply_of first max_redirects responses)
     = finished_signals
         (drive resolved reply_of
            {| current_reply_ := first;
               redirects_remaining_ := max_redirects |} responses).
Proof. done. Qed.

(** C2. A follower made with [max_redirects = N], [N] from 0 up to the
    largest [int], meets [N + 1] redirects in a row (and after them any
    response at all, such as one that is no redirect): [N + 1] requests go
    on the wire, the first one and [N] more, and [finished()] is emitted
    once. With [max_redirects = 0] one request goes on the wire, whatever
    the responses are. *)
Theorem redirect_budget N first redirects final :
  (0 <= N <= INT_MAX)%Z ->
  length redirects = Z.to_nat (N + 1) ->
  Forall (fun resp => is_redirect resp = true) redirects ->
  physical_requests
    (follow resolved reply_of first N (redirects ++ [final]))
  = Z.to_nat (N + 1)
  /\ finished_signals
       (follow resolved reply_of first N (redirects ++ [final]))
     = 1
  /\ (forall responses,
        physical_requests (follow resolved reply_of first 0 responses) = 1).
Proof.
  intros HN Hlen Hall.
  destruct (follow_counts first N (redirects ++ [final])) as [-> ->].
  destruct (drive_redirects (Z.to_nat N)
              {| current_reply_ := first; redirects_remaining_ := N |}
              redirects [final]) as [Hs Hf]; simpl; try lia; try done.
  split; [|split].
  - rewrite Hs. lia.
  - exact Hf.
  - intros responses.
    destruct (follow_counts first 0 responses) as [-> _].
    by rewrite drive_exhausted.
Qed.

(** C3, as the code has it. When the follower follows a redirect it puts
    one request on the wire. The request is the request of the reply that
    just finished with the URL replaced and nothing else: raw headers,
    known headers, attributes, priority and originating object are the
    same. The new URL is the redirect target resolved against the URL of
    that reply. The request goes to the manager of that reply, and it goes
    as a [GET] without outgoing data, whatever the operation of the reply
    that was redirected. *)
Theorem redirect_hop_request f :
  isValid (reply_attribute RedirectionTargetAttribute (current_reply_ f))
  = true ->
  redirects_remaining_ f <> 0%Z ->
  exists req,
    List.filter is_send (snd (ReplyFinished resolved reply_of f))
    = [Send (reply_manager (current_reply_ f)) GetOperation req 0]
    /\ url req
       = resolved (reply_url (current_reply_ f))
           (toUrl (reply_attribute RedirectionTargetAttribute
                     (current_reply_ f)))
    /\ rawHeaders req = rawHeaders (reply_request (current_reply_ f))
    /\ cookedHeaders req = cookedHeaders (reply_request (current_reply_ f))
    /\ attributes req = attributes (reply_request (current_reply_ f))
    /\ priority req = priority (reply_request (current_reply_ f))
    /\ originatingObject req
       = originatingObject (reply_request (current_reply_ f)).
Proof.
  intros Hredirect Hbudget.
  rewrite ReplyFinished_follows by done. cbv zeta.
  eexists. split; [reflexivity|]. done.
Qed.

End Transport.

End RedirectFollowerFacts.

(** [GET /x], answered by a redirect to [/y], answered by a redirect to
    [/z], answered by 200, with [max_redirects = 2]: three requests and
    one [finished()]. *)
Example follow_two_redirects :
  let acts :=
    RedirectFollower.follow Samples.resolved_absolute Samples.plain_reply_of
      Samples.get_reply 2
      [Samples.redirect_to "http://a/y"; Samples.redirect_to "http://a/z";
       Samples.ok_response] in
  RedirectFollower.physical_requests acts = 3
  /\ RedirectFollower.finished_signals acts = 1.
Proof. vm_compute. done. Qed.

(** With [max_redirects = 0] the first redirect ends the chain. *)
Example follow_no_budget :
  let acts :=
    RedirectFollower.follow Samples.resolved_absolute Samples.plain_reply_of
      Samples.get_reply 0
      [Samples.redirect_to "http://a/y"; Samples.ok_response] in
  RedirectFollower.physical_requests acts = 1
  /\ RedirectFollower.finished_signals acts = 1.
Proof. vm_compute. done. Qed.

Lemma redirect_budget_witness :
  RedirectFollower.physical_requests
    (RedirectFollower.follow Samples.resolved_absolute Samples.plain_reply_of
       Samples.get_reply 2
       ([Samples.redirect_to "http://a/y"; Samples.redirect_to "http://a/z";
         Samples.redirect_to "http://a/w"] ++ [Samples.ok_response]))
  = 3.
Proof.
  apply (RedirectFollowerFacts.redirect_budget
           Samples.resolved_absolute Samples.plain_reply_of 2
           Samples.get_reply
           [Samples.redirect_to "http://a/y"; Samples.redirect_to "http://a/z";
            Samples.redirect_to "http://a/w"] Samples.ok_response).
  - unfold RedirectFollower.INT_MAX. lia.
  - reflexivity.
  - repeat constructor.
Defined.

Lemma redirect_hop_request_witness :
  exists req,
    List.filter RedirectFollower.is_send
      (snd (RedirectFollower.ReplyFinished Samples.resolved_absolute
              Samples.plain_reply_of Samples.post_follower))
    = [RedirectFollower.Send 7 GetOperation req 0]
    /\ url req = "http://a/y"%string.
Proof.
  destruct (RedirectFollowerFacts.redirect_hop_request
              Samples.resolved_absolute Samples.plain_reply_of
              Samples.post_follower) as (req & Hsent & Hurl & _).
  - reflexivity.
  - discriminate.
  - exists req. split; [exact Hsent | exact Hurl].
Defined.

(** C3, as the specification has it, fails on the method: the reply to a
    [POST] is redirected, and the request that follows is a [GET] with no
    outgoing data. *)
Lemma redirect_hop_method_counterexample :
  RedirectFollower.reply_operation
    (RedirectFollower.current_reply_ Samples.post_follower)
  = PostOperation
  /\ List.filter RedirectFollower.is_send
       (snd (RedirectFollower.ReplyFinished Samples.resolved_absolute
               Samples.plain_reply_of Samples.post_follower))
     = [RedirectFollower.Send 7 GetOperation
          (setUrl "http://a/y"
             (RedirectFollower.reply_request Samples.post_reply)) 0]
  /\ GetOperation <> PostOperation.
Proof. split; [reflexivity|]. split; [reflexivity | discriminate]. Qed.

(** * Further properties *)

(** ** [createRequest], beyond the three rules *)

Section CreateRequestMore.

Variable applicationName applicationVersion : QString.
Variable QString_toInt : QString -> Z.

Local Abbreviation rewritten op request out :=
  (base_request
     (createRequest applicationName applicationVersion QString_toInt
        op request out)).

Lemma rawHeadersNamed_same_name key key' l :
  qstricmp_eq key key' = true ->
  rawHeadersNamed key l = rawHeadersNamed key' l.
Proof.
  intros H. apply qstricmp_eq_fold in H.
  induction l as [|[k v] l IH]; simpl; [done|].
  assert (qstricmp_eq k key = qstricmp_eq k key') as ->.
  { destruct (qstricmp_eq k key) eqn:E, (qstricmp_eq k key') eqn:E';
      try done.
    - apply qstricmp_eq_fold in E.
      assert (qstricmp_eq k key' = true)
        by (apply qstricmp_eq_fold; congruence).
      congruence.
    - apply qstricmp_eq_fold in E'.
      assert (qstricmp_eq k key = true)
        by (apply qstricmp_eq_fold; congruence).
      congruence. }
  destruct (qstricmp_eq k key'); by rewrite IH.
Qed.

(** The content-type rule fires for a [POST] without content type and for
    nothing else, and after it a [POST] has one. *)
Lemma rewritten_header_valid request out :
  isValid (header ContentTypeHeader (rewritten PostOperation request out))
  = true.
Proof.
  unfold header at 1. rewrite rewritten_cookedHeaders. simpl.
  destruct (isValid (header ContentTypeHeader request)) eqn:E; simpl.
  - exact E.
  - by rewrite lookup_insert_eq.
Qed.

Lemma rewritten_cache_policy op request out :
  toInt QString_toInt
    (attribute CacheLoadControlAttribute (rewritten op request out))
  <> CacheLoadControl_value PreferNetwork.
Proof.
  unfold attribute at 1. rewrite rewritten_attributes.
  case_bool_decide as H; [|exact H].
  by rewrite lookup_insert_eq.
Qed.

(** X1. Whatever the request and the operation, the request that
    [createRequest] hands on does not read [PreferNetwork] in its
    [CacheLoadControlAttribute]: the attribute is unset, or holds
    something that converts to another number. *)
Theorem createRequest_never_prefer_network op request out :
  toInt QString_toInt
    (attribute CacheLoadControlAttribute
       (base_request
          (createRequest applicationName applicationVersion QString_toInt
             op request out)))
  <> CacheLoadControl_value PreferNetwork.
Proof.
  unfold attribute at 1. rewrite rewritten_attributes.
  destruct (decide (toInt QString_toInt
                      (attribute CacheLoadControlAttribute request)
                    = CacheLoadControl_value PreferNetwork)) as [Hpn|Hother].
  - rewrite bool_decide_eq_true_2 by done.
    rewrite lookup_insert_eq. simpl. discriminate.
  - by rewrite bool_decide_eq_false_2.
Qed.

(** X2. Every [POST] leaves [createRequest] with a content type: the known
    header is valid and there is a raw [Content-Type] header. *)
Theorem createRequest_post_has_content_type request out :
  isValid
    (header ContentTypeHeader
       (base_request
          (createRequest applicationName applicationVersion QString_toInt
             PostOperation request out)))
  = true
  /\ (isValid (header ContentTypeHeader request) = false ->
      hasRawHeader "Content-Type"
        (base_request
           (createRequest applicationName applicationVersion QString_toInt
              PostOperation request out))
      = true).
Proof.
  split; [apply rewritten_header_valid|].
  intros Hinv. unfold hasRawHeader.
  rewrite findRawHeader_named, rewritten_rawHeaders, Hinv. cbv zeta. simpl.
  by rewrite rawHeadersNamed_set_same.
Qed.

(** X3. The default content type is for [POST] alone. For every other
    operation, [PUT] included, the known header and the raw
    [Content-Type] headers leave as they came, so that a request without
    content type leaves without one. *)
Theorem createRequest_other_operations_keep_content_type op request out :
  op <> PostOperation ->
  header ContentTypeHeader
    (base_request
       (createRequest applicationName applicationVersion QString_toInt
          op request out))
  = header ContentTypeHeader request
  /\ rawHeadersNamed "Content-Type"
       (rawHeaders
          (base_request
             (createRequest applicationName applicationVersion QString_toInt
                op request out)))
     = rawHeadersNamed "Content-Type" (rawHeaders request).
Proof.
  intros Hop. unfold header at 1.
  rewrite rewritten_cookedHeaders, rewritten_rawHeaders. cbv zeta.
  rewrite bool_decide_eq_false_2 by done. simpl. split; [done|].
  by apply rawHeadersNamed_set_other.
Qed.

(** X4. Rewriting a request that [createRequest] has rewritten, as happens
    when a reply's request is sent again, changes nothing that can be
    read by name: the URL, the attributes, the known headers and, for
    every header name, the raw headers of that name are those of the
    first rewriting. (The raw [User-Agent] header may move to the end of
    the list.) *)
Theorem createRequest_stable op request out out' :
  let once :=
    base_request
      (createRequest applicationName applicationVersion QString_toInt
         op request out) in
  let twice :=
    base_request
      (createRequest applicationName applicationVersion QString_toInt
         op once out') in
  url twice = url once
  /\ attributes twice = attributes once
  /\ cookedHeaders twice = cookedHeaders once
  /\ (forall key,
        rawHeadersNamed key (rawHeaders twice)
        = rawHeadersNamed key (rawHeaders once)).
Proof.
  cbv zeta.
  assert (bool_decide (op = PostOperation)
          && negb (isValid (header ContentTypeHeader
                              (rewritten op request out))) = false) as Hct.
  { case_bool_decide as Hop; [|done]. subst op.
    by rewrite rewritten_header_valid. }
  split; [apply rewritten_url|]. split; [|split].
  - rewrite (rewritten_attributes _ _ _ op (rewritten op request out)).
    rewrite bool_decide_eq_false_2; [done|]. apply rewritten_cache_policy.
  - rewrite (rewritten_cookedHeaders _ _ _ op (rewritten op request out)).
    by rewrite Hct.
  - intros key.
    rewrite (rewritten_rawHeaders _ _ _ op (rewritten op request out)).
    cbv zeta. rewrite Hct.
    destruct (qstricmp_eq key "User-Agent") eqn:E.
    + rewrite !(rawHeadersNamed_same_name key "User-Agent") by done.
      rewrite rawHeadersNamed_set_same.
      rewrite rewritten_rawHeaders. cbv zeta.
      case_match.
      * rewrite rawHeadersNamed_set_other by reflexivity.
        by rewrite rawHeadersNamed_set_same.
      * by rewrite rawHeadersNamed_set_same.
    + by rewrite rawHeadersNamed_set_other.
Qed.

End CreateRequestMore.

Lemma createRequest_other_operations_keep_content_type_witness :
  header ContentTypeHeader
    (base_request
       (createRequest "Clementine" "1.0" Samples.no_number
          PutOperation Samples.plain_request 0))
  = QVInvalid.
Proof.
  apply (createRequest_other_operations_keep_content_type
           "Clementine" "1.0" Samples.no_number
           PutOperation Samples.plain_request 0).
  discriminate.
Defined.

Lemma createRequest_post_has_content_type_witness :
  hasRawHeader "Content-Type"
    (base_request
       (createRequest "Clementine" "1.0" Samples.no_number
          PostOperation Samples.plain_request 0))
  = true.
Proof.
  apply (createRequest_post_has_content_type
           "Clementine" "1.0" Samples.no_number Samples.plain_request 0).
  reflexivity.
Defined.

(** ** [NetworkTimeouts], beyond the deadline *)

Module NetworkTimeoutsMore.
Import NetworkTimeouts NetworkTimeoutsFacts.

Lemma size_owned (m : gmap positive Z) (A : gset positive) :
  (forall r id, m !! r = Some id -> exists p, id = Z.pos p /\ p ∈ A) ->
  (forall p, p ∈ A -> exists r, m !! r = Some (Z.pos p)) ->
  (forall r1 r2 id, m !! r1 = Some id -> m !! r2 = Some id -> r1 = r2) ->
  size A = size m.
Proof.
  revert A. induction m as [|i x m Hi IH] using map_ind;
    intros A Hact Hown Hinj.
  - rewrite map_size_empty. apply size_empty_iff. intros id. split.
    + intros [r Hr]%Hown. by rewrite lookup_empty in Hr.
    + intros H. by apply not_elem_of_empty in H.
  - rewrite map_size_insert_None by done.
    destruct (Hact i x) as (px & -> & Hx); [by rewrite lookup_insert_eq|].
    assert (size (A ∖ {[px]}) = size m) as Hrec.
    { apply IH.
      - intros r id Hr.
        assert (r <> i) as Hne by congruence.
        destruct (Hact r id) as (p & -> & Hp); [by rewrite lookup_insert_ne|].
        exists p. split; [done|].
        apply elem_of_difference. split; [done|].
        rewrite elem_of_singleton. intros ->. apply Hne.
        apply (Hinj r i (Z.pos px)); [by rewrite lookup_insert_ne|].
        by rewrite lookup_insert_eq.
      - intros p [Hp Hne]%elem_of_difference.
        rewrite elem_of_singleton in Hne.
        destruct (Hown p Hp) as [r Hr]. exists r.
        rewrite lookup_insert in Hr. case_decide; [congruence | done].
      - intros r1 r2 id H1 H2.
        apply (Hinj r1 r2 id); rewrite lookup_insert_ne; congruence. }
    rewrite size_difference in Hrec.
    + rewrite size_singleton in Hrec.
      assert (size A <> 0); [|lia].
      intros H0. apply size_empty_iff in H0.
      apply (not_elem_of_empty (C := gset positive) px). by apply H0.
    + intros y ->%elem_of_singleton. done.
Qed.

(** Where timers can be started, every entry holds one. *)
Lemma all_started_AddReply reply st :
  timers_start st -> all_started st -> all_started (AddReply reply st).
Proof.
  intros Hstart Hall.
  destruct (timers_ st !! reply) as [old|] eqn:Hnone;
    [rewrite AddReply_watched; [done | eauto]|].
  rewrite AddReply_unwatched by done.
  rewrite startTimer_started by done.
  intros r id. simpl. rewrite lookup_insert. case_decide.
  - intros [= <-]. lia.
  - apply Hall.
Qed.

Lemma all_started_ReplyFinished sender st :
  all_started st -> all_started (ReplyFinished sender st).
Proof.
  intros Hall. unfold ReplyFinished.
  destruct (timers_ st !! sender); [|done].
  intros r id. simpl. rewrite lookup_delete. case_decide; [done | apply Hall].
Qed.

Lemma all_started_emit sig reply st :
  all_started st -> all_started (emit sig reply st).
Proof.
  intros H. destruct (emit_cases sig reply st) as [-> | ->]; [|done].
  by apply all_started_ReplyFinished.
Qed.

Lemma all_started_step w e :
  timers_start (sup w) -> all_started (sup w) -> all_started (sup (step w e)).
Proof.
  intros Hstart Hall. destruct e as [r|r|r|id].
  - by apply all_started_AddReply.
  - simpl. case_decide; [|done]. by apply all_started_emit.
  - simpl. by apply (all_started_emit destroyed r).
  - rewrite step_Tick. case_decide; [|done].
    destruct (QMap_key _ _) as [r|]; [|done].
    destruct (abort_sup r w) as [-> | ->]; [done | by apply all_started_emit].
Qed.

Lemma all_started_run es w :
  timers_start (sup w) -> all_started (sup w) -> all_started (sup (run w es)).
Proof.
  revert w. induction es as [|e es IH]; intros w Hstart Hall; [done|].
  apply IH; [by apply step_timers_start | by apply all_started_step].
Qed.

(** X5. A supervisor made with an interval that is not negative, in a
    thread that runs an event dispatcher: however callers, replies and
    timers have behaved since it was made, it runs as many timers as it
    watches replies, and no two watched replies share a timer. *)
Theorem timers_match_watched_replies timeout_msec replies es :
  (0 <= timeout_msec)%Z ->
  let st :=
    sup (run {| sup := new timeout_msec true; running := replies;
                aborts := [] |}
           es) in
  size (active_timers st) = size (timers_ st)
  /\ (forall r1 r2 id,
        timers_ st !! r1 = Some id -> timers_ st !! r2 = Some id -> r1 = r2).
Proof.
  intros Hinterval. cbv zeta.
  pose proof (wf_run es {| sup := new timeout_msec true; running := replies;
                           aborts := [] |} (wf_new timeout_msec true))
    as [Hact Hown Hinj _].
  assert (all_started
            (sup (run {| sup := new timeout_msec true; running := replies;
                         aborts := [] |} es))) as Hall.
  { apply all_started_run; [by split|].
    intros r id H. simpl in H. by rewrite lookup_empty in H. }
  assert (forall r1 r2 id,
            timers_ (sup (run {| sup := new timeout_msec true;
                                 running := replies; aborts := [] |} es))
              !! r1 = Some id ->
            timers_ (sup (run {| sup := new timeout_msec true;
                                 running := replies; aborts := [] |} es))
              !! r2 = Some id -> r1 = r2) as Hinj'.
  { intros r1 r2 id H1 H2. pose proof (Hall _ _ H1) as Hpos.
    destruct id as [|p|p]; try lia. by apply (Hinj r1 r2 p). }
  split; [|exact Hinj'].
  apply size_owned; try done.
  intros r id Hr. pose proof (Hall _ _ Hr) as Hpos.
  destruct id as [|p|p]; try lia. exists p. split; [done|].
  by apply (Hact r).
Qed.

(** X6. Registering a reply that is not watched and then receiving its
    [finished()] or [destroyed()] puts the table of timers and the set of
    running timers back as they were. The two connections made by
    [AddReply] stay. *)
Theorem register_then_finished_restores reply st :
  timers_ st !! reply = None ->
  timers_ (ReplyFinished reply (AddReply reply st)) = timers_ st
  /\ active_timers (ReplyFinished reply (AddReply reply st))
     = active_timers st
  /\ connections (ReplyFinished reply (AddReply reply st))
     = connections st ++ [(reply, destroyed); (reply, finished)].
Proof.
  intros Hnone. rewrite AddReply_unwatched by done.
  unfold ReplyFinished. simpl. rewrite lookup_insert_eq. simpl.
  split; [by apply delete_insert_id|]. split; [|done].
  destruct (startTimer_cases (timeout_msec_ st) st) as [-> | ->];
    [done|].
  unfold killTimer. simpl.
  pose proof (next_timer_id_fresh (active_timers st)) as Hfresh.
  apply set_eq. intros x.
  rewrite elem_of_difference, elem_of_union, !elem_of_singleton.
  split; [intros [[?|?] ?]; done|].
  intros Hx. split; [by right|]. by intros ->.
Qed.

(** X7. One turn of the event loop calls [abort()] at most once, and then
    it is the turn of a running timer, and the reply aborted is a watched
    reply whose entry holds that timer. Registering, finishing and
    destroying abort nothing, and a reply that is not watched is never
    aborted. *)
Theorem step_aborts_only_the_timed_out_reply w e :
  aborts (step w e) = aborts w
  \/ exists reply id,
       e = Tick id
       /\ id ∈ active_timers (sup w)
       /\ timers_ (sup w) !! reply = Some (Z.pos id)
       /\ aborts (step w e) = reply :: aborts w.
Proof.
  destruct e as [r|r|r|id]; simpl; try (left; by repeat case_decide).
  case_decide as Hid; [|by left]. unfold timerEvent.
  destruct (QMap_key _ _) as [r|] eqn:E; [|by left].
  right. exists r, id. repeat split; try done.
  - by apply QMap_key_Some.
  - apply aborts_abort.
Qed.

Lemma stale_tick w r id :
  wf (sup w) -> timers_ (sup w) !! r = Some (Z.pos id) -> r ∉ running w ->
  step w (Tick id)
  = {| sup := sup w; running := running w; aborts := r :: aborts w |}.
Proof.
  intros Hwf Hid Hrun. rewrite step_Tick.
  rewrite decide_True by (by eapply wf_active).
  rewrite (QMap_key_inj _ _ r); [|intros k Hk; by eapply wf_inj|done].
  unfold abort. simpl. by rewrite decide_False.
Qed.

(** X8. [timerEvent] leaves the entry and the timer alone; it is the
    reply's [finished()] that removes them. So a reply that was
    registered when it had finished already is aborted again at every
    turn of its timer: after [n] turns [abort()] has been called [n] more
    times, and the supervisor is as it was. *)
Theorem finished_reply_is_aborted_at_every_tick w r id n :
  wf (sup w) -> timers_ (sup w) !! r = Some (Z.pos id) -> r ∉ running w ->
  sup (run w (replicate n (Tick id))) = sup w
  /\ running (run w (replicate n (Tick id))) = running w
  /\ abort_count r (run w (replicate n (Tick id))) = n + abort_count r w.
Proof.
  revert w. induction n as [|n IH]; intros w Hwf Hid Hrun; [done|].
  change (run w (replicate (S n) (Tick id)))
    with (run (step w (Tick id)) (replicate n (Tick id))).
  rewrite (stale_tick w r id) by done.
  destruct (IH {| sup := sup w; running := running w;
                  aborts := r :: aborts w |}) as (-> & -> & ->); try done.
  repeat split. unfold abort_count. simpl.
  rewrite bool_decide_eq_true_2 by done. simpl. lia.
Qed.

(** X9. A watched reply keeps its entry, and the timer that the entry
    names keeps running, through every event that is neither its own [finished()] or [destroyed()] nor
    a turn of its own timer: other replies being registered, finishing,
    being destroyed or timing out do not touch it. *)
Theorem other_events_keep_the_timer w e r id :
  wf (sup w) -> timers_ (sup w) !! r = Some id ->
  e <> Finish r -> e <> Destroy r ->
  (forall timer, id = Z.pos timer -> e <> Tick timer) ->
  timers_ (sup (step w e)) !! r = Some id
  /\ (forall timer, id = Z.pos timer ->
        timer ∈ active_timers (sup (step w e))).
Proof.
  intros Hwf Hid Hf Hd Ht.
  assert (timers_ (sup (step w e)) !! r = Some id) as Hkept.
  { destruct e as [r'|r'|r'|id'].
    - simpl. destruct (decide (r' = r)) as [->|Hne].
      + rewrite AddReply_watched; [done | eauto].
      + by rewrite AddReply_lookup_ne.
    - assert (r <> r') as Hne by congruence.
      simpl. case_decide; [|done]. simpl. by rewrite emit_lookup_ne.
    - assert (r <> r') as Hne by congruence.
      simpl. by rewrite emit_lookup_ne.
    - rewrite step_Tick. case_decide; [|done].
      destruct (QMap_key _ _) as [r'|] eqn:E; [|done].
      apply QMap_key_Some in E.
      assert (r' <> r) as Hne.
      { intros ->. rewrite Hid in E. injection E as ->.
        by apply (Ht id'). }
      destruct (abort_sup r' w) as [-> | ->]; [done|].
      by rewrite emit_lookup_ne. }
  split; [done|].
  intros timer ->. eapply wf_active; [by apply wf_step | done].
Qed.

Lemma timers_match_watched_replies_witness :
  size (active_timers
          (sup (run {| sup := new 30000 true; running := {[1; 2]}%positive;
                       aborts := [] |}
                  [Register 1; Register 2; Finish 1]%positive)))
  = size (timers_
            (sup (run {| sup := new 30000 true; running := {[1; 2]}%positive;
                         aborts := [] |}
                    [Register 1; Register 2; Finish 1]%positive))).
Proof.
  assert (0 <= 30000)%Z as Hinterval by lia.
  destruct (timers_match_watched_replies 30000 {[1; 2]}%positive
              [Register 1; Register 2; Finish 1]%positive Hinterval)
    as [Hsize _].
  exact Hsize.
Defined.

Lemma register_then_finished_restores_witness :
  timers_ (ReplyFinished 2 (AddReply 2 (sup Samples.watching_world)))
  = timers_ (sup Samples.watching_world).
Proof.
  apply (register_then_finished_restores 2 (sup Samples.watching_world)).
  reflexivity.
Defined.

Lemma finished_reply_is_aborted_at_every_tick_witness :
  abort_count 1
    (run (step (step Samples.idle_world (Finish 1)) (Register 1))
         (replicate 3 (Tick 1)))
  = 3 + abort_count 1 (step (step Samples.idle_world (Finish 1)) (Register 1)).
Proof.
  apply (finished_reply_is_aborted_at_every_tick
           (step (step Samples.idle_world (Finish 1)) (Register 1)) 1 1 3).
  - apply wf_step, wf_step, wf_new.
  - reflexivity.
  - vm_compute. discriminate.
Defined.

Lemma other_events_keep_the_timer_witness :
  timers_ (sup (step Samples.watching_world (Register 2))) !! 1%positive
  = Some 1%Z.
Proof.
  apply (other_events_keep_the_timer
           Samples.watching_world (Register 2) 1 1).
  - apply wf_step, wf_new.
  - reflexivity.
  - discriminate.
  - discriminate.
  - intros timer _. discriminate.
Defined.

End NetworkTimeoutsMore.

(** ** [RedirectFollower], beyond the exhausted budget *)

Module RedirectChainFacts.
Import RedirectFollower RedirectFollowerFacts RedirectChain.

Section Transport.

Variable resolved : QUrl -> QUrl -> QUrl.
Variable reply_of : positive -> QNetworkRequest -> QNetworkReply.

Lemma int_wrap_id z : (INT_MIN <= z <= INT_MAX)%Z -> int_wrap z = z.
Proof.
  unfold INT_MIN, INT_MAX, int_wrap. intros H. rewrite Z.mod_small; lia.
Qed.

(** A budget that the redirects do not bring to 0: every redirect is
    followed, and the response that is no redirect ends the chain. *)
Lemma drive_follows_all redirects f final rest :
  (redirects_remaining_ f <= INT_MAX)%Z ->
  (INT_MIN <= redirects_remaining_ f - Z.of_nat (length redirects))%Z ->
  (redirects_remaining_ f < 0
   \/ Z.of_nat (length redirects) <= redirects_remaining_ f)%Z ->
  Forall (fun resp => is_redirect resp = true) redirects ->
  is_redirect final = false ->
  follow_ups (drive resolved reply_of f (redirects ++ final :: rest))
  = length redirects
  /\ finished_signals
       (drive resolved reply_of f (redirects ++ final :: rest))
     = 1.
Proof.
  revert f. induction redirects as [|resp redirects IH];
    intros f Hmax Hmin Hbudget Hall Hfinal.
  - simpl. rewrite ReplyFinished_no_redirect; by rewrite ?with_response_redirect.
  - apply Forall_cons in Hall as [Hresp Hall].
    cbn [length] in *. cbn [app drive].
    rewrite ReplyFinished_follows;
      rewrite ?with_response_redirect; try done; [|simpl; lia].
    cbn [redirects_remaining_ existsb is_send orb current_reply_].
    rewrite int_wrap_id by lia.
    match goal with
    | |- context [drive _ _ ?f' _] =>
        destruct (IH f') as [Hs Hf]; simpl; try lia; try done
    end.
    split.
    + unfold follow_ups in *. simpl. f_equal. exact Hs.
    + unfold finished_signals in *. simpl. exact Hf.
Qed.

(** X10. The chain that ends well. With [max_redirects = N], [N] a count,
    a run of [k] redirects, [k] at most [N], and then a response that is
    no redirect: [k + 1] requests go on the wire and [finished()] is
    emitted once, whatever responses would have come after. *)
Theorem redirects_within_budget N first redirects final rest :
  (0 <= N <= INT_MAX)%Z ->
  (Z.of_nat (length redirects) <= N)%Z ->
  Forall (fun resp => is_redirect resp = true) redirects ->
  is_redirect final = false ->
  physical_requests
    (follow resolved reply_of first N (redirects ++ final :: rest))
  = S (length redirects)
  /\ finished_signals
       (follow resolved reply_of first N (redirects ++ final :: rest))
     = 1.
Proof.
  intros HN Hk Hall Hfinal.
  destruct (follow_counts resolved reply_of first N
              (redirects ++ final :: rest)) as [-> ->].
  destruct (drive_follows_all redirects
              {| current_reply_ := first; redirects_remaining_ := N |}
              final rest) as [-> ->]; simpl; try done;
    unfold INT_MIN, INT_MAX in *; lia.
Qed.

(** X11. A negative [max_redirects] is no limit. The test is
    [redirects_remaining_-- == 0], which a counter that starts below 0
    does not meet on its way down: every redirect of the run is followed
    (as long as the counter stays an [int]). *)
Theorem negative_budget_follows_every_redirect N first redirects final rest :
  (N < 0)%Z ->
  (INT_MIN <= N - Z.of_nat (length redirects))%Z ->
  Forall (fun resp => is_redirect resp = true) redirects ->
  is_redirect final = false ->
  physical_requests
    (follow resolved reply_of first N (redirects ++ final :: rest))
  = S (length redirects)
  /\ finished_signals
       (follow resolved reply_of first N (redirects ++ final :: rest))
     = 1.
Proof.
  intros HN Hk Hall Hfinal.
  destruct (follow_counts resolved reply_of first N
              (redirects ++ final :: rest)) as [-> ->].
  destruct (drive_follows_all redirects
              {| current_reply_ := first; redirects_remaining_ := N |}
              final rest) as [-> ->]; simpl; try done;
    unfold INT_MIN, INT_MAX in *; lia.
Qed.

Lemma drive_bounded responses f :
  (0 <= redirects_remaining_ f <= INT_MAX)%Z ->
  follow_ups (drive resolved reply_of f responses)
  <= Z.to_nat (redirects_remaining_ f).
Proof.
  revert f. induction responses as [|resp rest IH]; intros f Hn; simpl;
    [unfold follow_ups; simpl; lia|].
  destruct (is_redirect resp) eqn:E.
  - destruct (decide (redirects_remaining_ f = 0%Z)) as [H0|H0].
    + rewrite ReplyFinished_exhausted;
        rewrite ?with_response_redirect; try done. simpl.
      unfold follow_ups. simpl. lia.
    + rewrite ReplyFinished_follows;
        rewrite ?with_response_redirect; try done.
      cbn [redirects_remaining_ existsb is_send orb current_reply_].
      rewrite int_wrap_pred by lia.
      match goal with
      | |- context [drive _ _ ?f' _] =>
          specialize (IH f'); simpl in IH
      end.
      unfold follow_ups in *. simpl.
      etransitivity; [apply le_n_S, IH; lia|]. lia.
  - rewrite ReplyFinished_no_redirect;
      rewrite ?with_response_redirect; try done. simpl.
    unfold follow_ups. simpl. lia.
Qed.

(** X12. Whatever the responses are, a follower made with
    [max_redirects = N], [N] a count, sends at most [N] requests of its
    own: at most [N + 1] requests go on the wire. *)
Theorem follower_never_exceeds_budget N first responses :
  (0 <= N <= INT_MAX)%Z ->
  physical_requests (follow resolved reply_of first N responses)
  <= S (Z.to_nat N).
Proof.
  intros HN.
  destruct (follow_counts resolved reply_of first N responses) as [-> _].
  apply le_n_S.
  by apply (drive_bounded responses
              {| current_reply_ := first; redirects_remaining_ := N |}).
Qed.



End Transport.

End RedirectChainFacts.

Module RedirectHopFacts.
Import RedirectFollower RedirectFollowerFacts RedirectChain.

Lemma same_but_url_setUrl u r : same_but_url (setUrl u r) r.
Proof. by repeat split. Qed.

Lemma same_but_url_trans a b c :
  same_but_url a b -> same_but_url b c -> same_but_url a c.
Proof.
  intros (?&?&?&?&?) (?&?&?&?&?). repeat split; congruence.
Qed.

Section EchoingTransport.

Variable resolved : QUrl -> QUrl -> QUrl.
Variable reply_of : positive -> QNetworkRequest -> QNetworkReply.

(** The reply that a manager returns names that manager and shows the
    request it was made for, but for the URL. *)
Hypothesis reply_of_manager :
  forall m req, reply_manager (reply_of m req) = m.
Hypothesis reply_of_request :
  forall m req, same_but_url (reply_request (reply_of m req)) req.

Lemma drive_hops manager request responses f :
  reply_manager (current_reply_ f) = manager ->
  same_but_url (reply_request (current_reply_ f)) request ->
  Forall (hop_of manager request) (drive resolved reply_of f responses).
Proof.
  revert f. induction responses as [|resp rest IH]; intros f Hm Hreq;
    [constructor|]. simpl.
  destruct (is_redirect resp) eqn:E.
  - destruct (decide (redirects_remaining_ f = 0%Z)) as [H0|H0].
    + rewrite ReplyFinished_exhausted
        by (by rewrite ?with_response_redirect).
      simpl. by repeat constructor.
    + rewrite ReplyFinished_follows
        by (by rewrite ?with_response_redirect).
      cbn [existsb is_send orb]. simpl.
      constructor; [done|]. constructor.
      { repeat split; try done.
        all: destruct Hreq as (?&?&?&?&?); done. }
      repeat (constructor; [done|]).
      apply IH; simpl.
      * by rewrite reply_of_manager.
      * eapply same_but_url_trans; [apply reply_of_request|].
        eapply same_but_url_trans; [apply same_but_url_setUrl | exact Hreq].
  - rewrite ReplyFinished_no_redirect
      by (by rewrite ?with_response_redirect).
    simpl. by repeat constructor.
Qed.

(** X14. When the replies of the manager show the requests they were made
    for, every request that the follower sends in its life, at whatever
    hop, goes to the manager of the first reply, as a [GET] without
    outgoing data, and differs from the request of the first reply in the
    URL at most: headers and attributes are carried along the whole
    chain. *)
Theorem every_hop_carries_the_first_request N first responses :
  Forall (hop_of (reply_manager first) (reply_request first))
    (follow resolved reply_of first N responses).
Proof.
  unfold follow, new. apply Forall_app. split.
  - by repeat constructor.
  - apply drive_hops; simpl; [done | by repeat split].
Qed.

End EchoingTransport.

Section ThroughNetworkAccessManager.

Variable applicationName applicationVersion : QString.
Variable QString_toInt : QString -> Z.
Variable resolved : QUrl -> QUrl -> QUrl.
Variable reply_of : positive -> QNetworkRequest -> QNetworkReply.

Lemma rewritten_user_agent op request out :
  rawHeader "User-Agent"
    (base_request
       (createRequest applicationName applicationVersion QString_toInt
          op request out))
  = user_agent applicationName applicationVersion.
Proof.
  unfold rawHeader.
  rewrite findRawHeader_named, rewritten_rawHeaders. cbv zeta.
  case_match.
  - rewrite rawHeadersNamed_set_other by reflexivity.
    by rewrite rawHeadersNamed_set_same.
  - by rewrite rawHeadersNamed_set_same.
Qed.

(** X15. A redirect followed through a [NetworkAccessManager]: the one
    request that the hop produces reaches the base class as a [GET]
    without outgoing data, for the redirect target resolved against the
    URL of the reply that finished, with the application's [User-Agent],
    and with the content type of the reply's request, no default being
    added. *)
Theorem redirect_hop_through_createRequest f :
  isValid (reply_attribute RedirectionTargetAttribute (current_reply_ f))
  = true ->
  redirects_remaining_ f <> 0%Z ->
  exists call,
    omap (through_NetworkAccessManager
            applicationName applicationVersion QString_toInt)
         (snd (ReplyFinished resolved reply_of f))
    = [call]
    /\ base_op call = GetOperation
    /\ base_outgoingData call = 0%Z
    /\ url (base_request call)
       = resolved (reply_url (current_reply_ f))
           (toUrl (reply_attribute RedirectionTargetAttribute
                     (current_reply_ f)))
    /\ rawHeader "User-Agent" (base_request call)
       = String.append applicationName (String " "%char applicationVersion)
    /\ header ContentTypeHeader (base_request call)
       = header ContentTypeHeader (reply_request (current_reply_ f)).
Proof.
  intros Hredirect Hbudget.
  rewrite ReplyFinished_follows by done. cbv zeta.
  eexists. split; [reflexivity|].
  split; [done|]. split; [done|].
  split; [by rewrite rewritten_url|].
  split; [apply rewritten_user_agent|].
  unfold header at 1. by rewrite rewritten_cookedHeaders.
Qed.

End ThroughNetworkAccessManager.

End RedirectHopFacts.

Lemma redirects_within_budget_witness :
  RedirectFollower.physical_requests
    (RedirectFollower.follow Samples.resolved_absolute Samples.plain_reply_of
       Samples.get_reply 5
       ([Samples.redirect_to "http://a/y"; Samples.redirect_to "http://a/z"]
        ++ Samples.ok_response :: [Samples.redirect_to "http://a/w"]))
  = 3.
Proof.
  apply (RedirectChainFacts.redirects_within_budget
           Samples.resolved_absolute Samples.plain_reply_of 5
           Samples.get_reply
           [Samples.redirect_to "http://a/y"; Samples.redirect_to "http://a/z"]
           Samples.ok_response [Samples.redirect_to "http://a/w"]).
  - unfold RedirectFollower.INT_MAX. lia.
  - simpl. lia.
  - repeat constructor.
  - reflexivity.
Defined.

Lemma negative_budget_follows_every_redirect_witness :
  RedirectFollower.physical_requests
    (RedirectFollower.follow Samples.resolved_absolute Samples.plain_reply_of
       Samples.get_reply (-1)
       ([Samples.redirect_to "http://a/y"; Samples.redirect_to "http://a/z";
         Samples.redirect_to "http://a/w"]
        ++ Samples.ok_response :: []))
  = 4.
Proof.
  apply (RedirectChainFacts.negative_budget_follows_every_redirect
           Samples.resolved_absolute Samples.plain_reply_of (-1)
           Samples.get_reply
           [Samples.redirect_to "http://a/y"; Samples.redirect_to "http://a/z";
            Samples.redirect_to "http://a/w"]
           Samples.ok_response []).
  - lia.
  - unfold RedirectChain.INT_MIN. simpl. lia.
  - repeat constructor.
  - reflexivity.
Defined.

Lemma follower_never_exceeds_budget_witness :
  RedirectFollower.physical_requests
    (RedirectFollower.follow Samples.resolved_absolute Samples.plain_reply_of
       Samples.get_reply 1
       [Samples.redirect_to "http://a/y"; Samples.redirect_to "http://a/z";
        Samples.redirect_to "http://a/w"])
  <= 2.
Proof.
  apply (RedirectChainFacts.follower_never_exceeds_budget
           Samples.resolved_absolute Samples.plain_reply_of 1
           Samples.get_reply
           [Samples.redirect_to "http://a/y"; Samples.redirect_to "http://a/z";
            Samples.redirect_to "http://a/w"]).
  unfold RedirectFollower.INT_MAX. lia.
Defined.


Lemma every_hop_carries_the_first_request_witness :
  Forall (RedirectChain.hop_of 7 Samples.plain_request)
    (RedirectFollower.follow Samples.resolved_absolute Samples.plain_reply_of
       Samples.get_reply 2
       [Samples.redirect_to "http://a/y"; Samples.ok_response]).
Proof.
  assert (forall m req,
             RedirectFollower.reply_manager (Samples.plain_reply_of m req) = m)
    as Hmanager by reflexivity.
  assert (forall m req,
             RedirectChain.same_but_url
               (RedirectFollower.reply_request (Samples.plain_reply_of m req))
               req)
    as Hrequest by (intros m req; by repeat split).
  exact (RedirectHopFacts.every_hop_carries_the_first_request
           Samples.resolved_absolute Samples.plain_reply_of
           Hmanager Hrequest 2 Samples.get_reply
           [Samples.redirect_to "http://a/y"; Samples.ok_response]).
Defined.

Lemma redirect_hop_through_createRequest_witness :
  exists call,
    omap (RedirectChain.through_NetworkAccessManager
            "Clementine" "1.0" Samples.no_number)
         (snd (RedirectFollower.ReplyFinished Samples.resolved_absolute
                 Samples.plain_reply_of Samples.post_follower))
    = [call]
    /\ base_op call = GetOperation
    /\ rawHeader "User-Agent" (base_request call) = "Clementine 1.0"%string.
Proof.
  destruct (RedirectHopFacts.redirect_hop_through_createRequest
              "Clementine" "1.0" Samples.no_number
              Samples.resolved_absolute Samples.plain_reply_of
              Samples.post_follower)
    as (call & Hcall & Hop & _ & _ & Hua & _).
  - reflexivity.
  - discriminate.
  - exists call. split; [exact Hcall|]. split; [exact Hop | exact Hua].
Defined.

(** ** [ThreadSafeNetworkDiskCache], one thread at a time *)

Module ThreadSafeNetworkDiskCacheFacts.
Import ThreadSafeNetworkDiskCache.

Section Wrapper.

Context {Cache MetaData : Type} `{QAbstractNetworkCache Cache MetaData}.
Variable NetworkCache_path : QString.

Lemma call_wrapper_ready c cache :
  call_wrapper NetworkCache_path c {| sMutex := false; sCache := Some cache |}
  = Some (fst (call_cache c cache),
          {| sMutex := false; sCache := Some (snd (call_cache c cache)) |}).
Proof.
  destruct c as [| |u|d|u|m|u|m|]; simpl;
    unfold construct, wrapper_cacheSize, wrapper_data, wrapper_insert,
      wrapper_metaData, wrapper_prepare, wrapper_remove,
      wrapper_updateMetaData, wrapper_clear, QMutexLocker, through_sCache;
    simpl; try done.
  - by destruct (data u cache).
  - by destruct (metaData u cache).
  - by destruct (prepare m cache).
  - by destruct (remove u cache).
Qed.

(** X16. The cache object is made once. Where no cache object exists, the
    constructor of a wrapper makes one and sets its directory; where one
    exists, the constructor, and so the constructor of every further
    [NetworkAccessManager], leaves it as it is, contents and directory.
    Either way the constructor returns with the mutex released. *)
Theorem shared_cache_is_made_once st :
  sMutex st = false ->
  exists st',
    construct NetworkCache_path st = Some (tt, st')
    /\ sMutex st' = false
    /\ sCache st'
       = Some (default (setCacheDirectory NetworkCache_path new_cache)
                 (sCache st))
    /\ construct NetworkCache_path st' = Some (tt, st')
    /\ NetworkAccessManager_new NetworkCache_path st' = Some (tt, st').
Proof.
  intros Hfree. destruct st as [m c]. simpl in Hfree. subst m.
  unfold NetworkAccessManager_new, construct, QMutexLocker. simpl.
  destruct c as [cache|]; simpl; eexists; repeat split; done.
Qed.

(** X17. Through the wrapper a caller gets what the cache object gives.
    Once a wrapper exists, calls on wrappers, one after the other, none
    of them held up and none of them finding [sCache] unset, return what
    the same calls on the cache object return and leave the cache object
    as those leave it; after each, the mutex is free. *)
Theorem wrapper_is_transparent calls st cache :
  sMutex st = false -> sCache st = Some cache ->
  run_wrapper NetworkCache_path calls st
  = Some (fst (run_cache calls cache),
          {| sMutex := false; sCache := Some (snd (run_cache calls cache)) |}).
Proof.
  intros Hfree Hcache. destruct st as [m c]. simpl in *. subst m c.
  revert cache. induction calls as [|c calls IH]; intros cache; [done|].
  cbn [run_wrapper run_cache]. rewrite call_wrapper_ready.
  rewrite IH. destruct (call_cache c cache) as [r cache'].
  simpl. by destruct (run_cache calls cache').
Qed.

End Wrapper.

End ThreadSafeNetworkDiskCacheFacts.

Lemma shared_cache_is_made_once_witness :
  exists st',
    ThreadSafeNetworkDiskCache.construct (H := Samples.url_list_cache)
      "/home/user/.config/Clementine/networkcache"
      ThreadSafeNetworkDiskCache.initial
    = Some (tt, st')
    /\ ThreadSafeNetworkDiskCache.sMutex st' = false.
Proof.
  destruct (ThreadSafeNetworkDiskCacheFacts.shared_cache_is_made_once
              (H := Samples.url_list_cache)
              "/home/user/.config/Clementine/networkcache"
              ThreadSafeNetworkDiskCache.initial)
    as (st' & Hmade & Hfree & _).
  - reflexivity.
  - exists st'. split; [exact Hmade | exact Hfree].
Defined.

Lemma wrapper_is_transparent_witness :
  ThreadSafeNetworkDiskCache.run_wrapper (H := Samples.url_list_cache)
    "/home/user/.config/Clementine/networkcache"
    [ThreadSafeNetworkDiskCache.Prepare "http://a/b"%string;
     ThreadSafeNetworkDiskCache.Construct;
     ThreadSafeNetworkDiskCache.CacheSize;
     ThreadSafeNetworkDiskCache.Remove "http://a/b"%string;
     ThreadSafeNetworkDiskCache.Data "http://a/b"%string]
    {| ThreadSafeNetworkDiskCache.sMutex := false;
       ThreadSafeNetworkDiskCache.sCache := Some [] |}
  = Some ([ThreadSafeNetworkDiskCache.Device 1;
           ThreadSafeNetworkDiskCache.Done;
           ThreadSafeNetworkDiskCache.Size 1;
           ThreadSafeNetworkDiskCache.Removed true;
           ThreadSafeNetworkDiskCache.Device 0],
          {| ThreadSafeNetworkDiskCache.sMutex := false;
             ThreadSafeNetworkDiskCache.sCache := Some [] |}).
Proof.
  apply (ThreadSafeNetworkDiskCacheFacts.wrapper_is_transparent
           (H := Samples.url_list_cache)
           "/home/user/.config/Clementine/networkcache"
           [ThreadSafeNetworkDiskCache.Prepare "http://a/b"%string;
            ThreadSafeNetworkDiskCache.Construct;
            ThreadSafeNetworkDiskCache.CacheSize;
            ThreadSafeNetworkDiskCache.Remove "http://a/b"%string;
            ThreadSafeNetworkDiskCache.Data "http://a/b"%string]
           {| ThreadSafeNetworkDiskCache.sMutex := false;
              ThreadSafeNetworkDiskCache.sCache := Some [] |} []).
  - reflexivity.
  - reflexivity.
Defined.

(** ** [ThreadSafeNetworkDiskCache], several threads *)

Module CacheThreadsFacts.
Import ThreadSafeNetworkDiskCache CacheThreads.

Section Threads.

Context {Cache MetaData : Type} `{QAbstractNetworkCache Cache MetaData}.
Variable NetworkCache_path : QString.










End Threads.

End CacheThreadsFacts.

(** The two sample threads, from before the first wrapper is made: the
    second waits while the first is inside, and the calls return in this
    order. *)
Example two_threads_history :
  CacheThreads.history
    (CacheThreads.run (H := Samples.url_list_cache) "networkcache"
       Samples.taking_turns
       (CacheThreads.start Samples.two_threads
          ThreadSafeNetworkDiskCache.initial))
  = [(0, ThreadSafeNetworkDiskCache.Construct,
      ThreadSafeNetworkDiskCache.Done);
     (1, ThreadSafeNetworkDiskCache.Construct,
      ThreadSafeNetworkDiskCache.Done);
     (0, ThreadSafeNetworkDiskCache.Prepare "http://a/b"%string,
      ThreadSafeNetworkDiskCache.Device 1);
     (1, ThreadSafeNetworkDiskCache.Remove "http://a/b"%string,
      ThreadSafeNetworkDiskCache.Removed true);
     (0, ThreadSafeNetworkDiskCache.CacheSize,
      ThreadSafeNetworkDiskCache.Size 0);
     (1, ThreadSafeNetworkDiskCache.Data "http://a/b"%string,
      ThreadSafeNetworkDiskCache.Device 0)].
Proof. vm_compute. reflexivity. Qed.

